(** * cells: a toroidal Game of Life with mouse painting

    A shallow embedding of [src/cells.cpp] and the properties of its
    simulation-and-painting kernel.

    Conventions of the embedding.
    - A C++ [int] is a [Z].  Signed overflow is undefined in C++: the
      procedures that compute with coordinates the caller chooses
      ([Paint_Line] and its loops, the conversion of the pointer position)
      come in two forms.  The form named [_int] checks every [int]
      operation and faults ([None]) where the C++ operation is undefined;
      the plain form computes on the integers and describes the executions
      without overflow.  They agree wherever the [_int] form returns.
      A [float] is an IEEE 754 binary32 number.
    - A C++ array is a [list]; an access outside its bounds is undefined, and
      is a fault ([None]) of the error monad [option].
    - The global variables of the program are the fields of the records [Sim]
      (grid and render buffer) and [App] (pacing and pointer state); a
      procedure that mutates them is a function from state to state.
    - The constants [SIM_WIDTH] and [SIM_HEIGHT] (480 and 270 in the source)
      are section variables: every result holds for each grid size.
    - A [for] loop over a range whose body does not assign the loop variable
      is a traversal of that range ([for_each] over [seqZ]); in the [_int]
      form of the rasteriser the increment of the loop variable is checked
      like every other operation. *)

From Stdlib Require Import ZArith Lia Bool Floats.SpecFloat.
From stdpp Require Import base tactics option list list_numbers.

Local Open Scope Z_scope.

(** ** Arrays and the error monad *)

(** A loop whose body may fault: the body runs on each element in turn. *)
Fixpoint for_each {A S : Type} (l : list A) (body : A → S → option S) (s : S)
  : option S :=
  match l with
  | [] => Some s
  | a :: l' => s' ← body a s; for_each l' body s'
  end.

(** [for (v = lo; v < hi; v++)] and [for (v = lo; v <= hi; v++)]. *)
Definition range_lt (lo hi : Z) : list Z := seqZ lo (hi - lo).
Definition range_le (lo hi : Z) : list Z := seqZ lo (hi - lo + 1).

(** An array index: negative subscripts are out of bounds. *)
Definition index (i : Z) : option nat :=
  if 0 <=? i then Some (Z.to_nat i) else None.

(** [bool a[W][H]], indexed [a[x][y]]. *)
Abbreviation Grid := (list (list bool)).

Definition read (g : Grid) (x y : Z) : option bool :=
  i ← index x; j ← index y; col ← g !! i; col !! j.

Definition write (g : Grid) (x y : Z) (v : bool) : option Grid :=
  i ← index x; j ← index y; col ← g !! i;
  if decide (j < length col)%nat then Some (<[i := <[j := v]> col]> g) else None.

(** ** The simulation state *)

(** [renderPoints] holds [SDL_FPoint]s whose coordinates are [(float)x] for
    grid coordinates [x]; the conversion is exact below [2^24], so a point is
    kept as its pair of integers. *)
Record Sim : Type := mkSim {
  currentState : Grid;
  nextState : Grid;
  renderPoints : list (Z * Z);
  renderPointCount : Z;
  needs_new_render : bool
}.

(** The points handed to the renderer: [renderPoints[0..renderPointCount)]. *)
Definition render_set (s : Sim) : list (Z * Z) :=
  take (Z.to_nat (renderPointCount s)) (renderPoints s).

Definition Clear_Rendered_Points (s : Sim) : Sim :=
  mkSim (currentState s) (nextState s) (renderPoints s) 0 (needs_new_render s).

Definition Add_Rendered_Point (s : Sim) (x y : Z) : option Sim :=
  i ← index (renderPointCount s);
  if decide (i < length (renderPoints s))%nat then
    Some (mkSim (currentState s) (nextState s)
                (<[i := (x, y)]> (renderPoints s))
                (renderPointCount s + 1)
                true)
  else None.

Definition set_currentState (s : Sim) (g : Grid) : Sim :=
  mkSim g (nextState s) (renderPoints s) (renderPointCount s) (needs_new_render s).

Definition set_nextState (s : Sim) (g : Grid) : Sim :=
  mkSim (currentState s) g (renderPoints s) (renderPointCount s) (needs_new_render s).

(** [std::swap(currentState, nextState)]. *)
Definition swap_states (s : Sim) : Sim :=
  mkSim (nextState s) (currentState s) (renderPoints s) (renderPointCount s)
        (needs_new_render s).

(** ** Single-precision floats

    The rate and the pointer position are [float]s: IEEE 754 binary32, with
    the operations of the standard library's executable specification at
    precision 24 and maximal exponent 128. *)

Abbreviation float := spec_float.

Definition float_prec : Z := 24.
Definition float_emax : Z := 128.

(** [(float)n], rounded to nearest even. *)
Definition float_of_Z (n : Z) : float :=
  binary_normalize float_prec float_emax n 0 false.

Definition float_add : float → float → float := SFadd float_prec float_emax.
Definition float_div : float → float → float := SFdiv float_prec float_emax.
Definition float_lt : float → float → bool := SFltb.
Definition float_le : float → float → bool := SFleb.
Definition float_eq : float → float → bool := SFeqb.

(** The integer a float truncates to, toward zero; infinities and NaN have
    none.  The conversion [(int)f] itself is [int_of_float] below: it is
    also undefined when this integer is outside the range of [int]. *)
Definition Z_of_float (f : float) : option Z :=
  match f with
  | S754_zero _ => Some 0
  | S754_finite s m e => Some (cond_Zopp s (Z.shiftl (Z.pos m) e))
  | S754_infinity _ | S754_nan => None
  end.

(** A float that is a number: zero or finite. *)
Definition is_number (f : float) : Prop :=
  match f with
  | S754_zero _ | S754_finite _ _ _ => True
  | S754_infinity _ | S754_nan => False
  end.

(** ** The application state *)

Definition RENDER_SCALE : Z := 4.
Definition MAX_STEPS_PER_SECOND : Z := 20.

Record App : Type := mkApp {
  sim : Sim;
  last_step_time : Z;
  steps_per_second : float;
  mouseDown : bool;
  mouseX : float;
  mouseY : float;
  lastMouseCellX : Z;
  lastMouseCellY : Z;
  mouseWasDown : bool
}.

(** The events the program reacts to, with the fields it reads.  (On a
    motion event the program reads [event->button.x] and [.y]; in the event
    union these are the position of the motion.) *)
Inductive SDL_Event : Type :=
  | SDL_EVENT_QUIT
  | SDL_EVENT_MOUSE_WHEEL (wheel_y : float)
  | SDL_EVENT_MOUSE_BUTTON_DOWN (button : Z) (x y : float)
  | SDL_EVENT_MOUSE_MOTION (x y : float)
  | SDL_EVENT_MOUSE_BUTTON_UP (button : Z)
  | SDL_EVENT_OTHER.

Inductive SDL_AppResult : Type :=
  | SDL_APP_CONTINUE
  | SDL_APP_SUCCESS
  | SDL_APP_FAILURE.

Definition set_sim (a : App) (s : Sim) : App :=
  mkApp s (last_step_time a) (steps_per_second a) (mouseDown a) (mouseX a)
        (mouseY a) (lastMouseCellX a) (lastMouseCellY a) (mouseWasDown a).

Definition set_last_step_time (a : App) (t : Z) : App :=
  mkApp (sim a) t (steps_per_second a) (mouseDown a) (mouseX a) (mouseY a)
        (lastMouseCellX a) (lastMouseCellY a) (mouseWasDown a).

Definition set_steps_per_second (a : App) (r : float) : App :=
  mkApp (sim a) (last_step_time a) r (mouseDown a) (mouseX a) (mouseY a)
        (lastMouseCellX a) (lastMouseCellY a) (mouseWasDown a).

Definition set_mouse (a : App) (down : bool) (x y : float) : App :=
  mkApp (sim a) (last_step_time a) (steps_per_second a) down x y
        (lastMouseCellX a) (lastMouseCellY a) (mouseWasDown a).

Definition set_mouseWasDown (a : App) (b : bool) : App :=
  mkApp (sim a) (last_step_time a) (steps_per_second a) (mouseDown a)
        (mouseX a) (mouseY a) (lastMouseCellX a) (lastMouseCellY a) b.

Definition set_lastMouseCell (a : App) (x y : Z) : App :=
  mkApp (sim a) (last_step_time a) (steps_per_second a) (mouseDown a)
        (mouseX a) (mouseY a) x y (mouseWasDown a).

(** The renderer has drawn the points: [needs_new_render = false]. *)
Definition rendered (s : Sim) : Sim :=
  mkSim (currentState s) (nextState s) (renderPoints s) (renderPointCount s) false.

Definition SDL_AppEvent (a : App) (event : SDL_Event) : App * SDL_AppResult :=
  match event with
  | SDL_EVENT_QUIT => (a, SDL_APP_SUCCESS)
  | SDL_EVENT_MOUSE_WHEEL delta =>
      let r := float_add (steps_per_second a) delta in
      let r := if float_lt r (float_of_Z 0) then float_of_Z 0 else r in
      let r := if float_lt (float_of_Z MAX_STEPS_PER_SECOND) r
               then float_of_Z MAX_STEPS_PER_SECOND else r in
      (set_steps_per_second a r, SDL_APP_CONTINUE)
  | SDL_EVENT_MOUSE_BUTTON_DOWN button x y =>
      (if button =? 1 then set_mouse a true x y else a, SDL_APP_CONTINUE)
  | SDL_EVENT_MOUSE_MOTION x y =>
      (if mouseDown a then set_mouse a (mouseDown a) x y else a, SDL_APP_CONTINUE)
  | SDL_EVENT_MOUSE_BUTTON_UP button =>
      (if button =? 1 then set_mouse a false (mouseX a) (mouseY a) else a,
       SDL_APP_CONTINUE)
  | SDL_EVENT_OTHER => (a, SDL_APP_CONTINUE)
  end.

(** ** The line rasteriser

    [Paint_Line] and its two loops call [Try_Paint_Point] on every cell they
    visit and ignore what it returns.  The loops are written over the
    procedure [visit] they call, so that the cells visited can be observed:
    the program instantiates [visit] with painting, [Paint_Line_trace] with a
    recorder.

    This section computes on the integers: it is what the procedures do
    when no operation overflows.  The section after it has the procedures
    on [int]. *)

Section Line.

Context {S : Type}.
Variable visit : S → Z → Z → option S.

Fixpoint shallow_loop (xs : list Z) (y error step dx dy : Z) (s : S) : option S :=
  match xs with
  | [] => Some s
  | x :: xs' =>
      s ← visit s x y;
      let '(y, error) :=
        if error >? 0 then (y + step, error - 2 * dx) else (y, error) in
      shallow_loop xs' y (error + 2 * dy) step dx dy s
  end.

Definition Paint_Line_Shallow_with (x0 y0 x1 y1 dx dy : Z) (s : S) : option S :=
  let step := if y1 <? y0 then -1 else 1 in
  let error := 2 * dy - dx in
  shallow_loop (range_le x0 x1) y0 error step dx dy s.

Fixpoint steep_loop (ys : list Z) (x error step dx dy : Z) (s : S) : option S :=
  match ys with
  | [] => Some s
  | y :: ys' =>
      s ← visit s x y;
      let '(x, error) :=
        if error >? 0 then (x + step, error - 2 * dy) else (x, error) in
      steep_loop ys' x (error + 2 * dx) step dx dy s
  end.

Definition Paint_Line_Steep_with (x0 y0 x1 y1 dx dy : Z) (s : S) : option S :=
  let step := if x1 <? x0 then -1 else 1 in
  let error := 2 * dx - dy in
  steep_loop (range_le y0 y1) x0 error step dx dy s.

Definition Paint_Line_with (x0 y0 x1 y1 : Z) (s : S) : option S :=
  let dx := Z.abs (x1 - x0) in
  let dy := Z.abs (y1 - y0) in
  if dy <=? dx then
    if x0 <=? x1 then Paint_Line_Shallow_with x0 y0 x1 y1 dx dy s
    else Paint_Line_Shallow_with x1 y1 x0 y0 dx dy s
  else
    if y0 <=? y1 then Paint_Line_Steep_with x0 y0 x1 y1 dx dy s
    else Paint_Line_Steep_with x1 y1 x0 y0 dx dy s.

End Line.

(** The recorder: it appends the visited cell to the trace. *)
Definition record (tr : list (Z * Z)) (x y : Z) : option (list (Z * Z)) :=
  Some (tr ++ [(x, y)]).

(** The sequence of cells [Paint_Line] visits. *)
Definition Paint_Line_trace (x0 y0 x1 y1 : Z) : option (list (Z * Z)) :=
  Paint_Line_with record x0 y0 x1 y1 [].

(** ** The line rasteriser on [int]

    The same procedures with every [int] operation checked: an operation
    whose result does not fit in 32 bits is undefined, and faults. *)

Definition INT_MIN : Z := - 2 ^ 31.
Definition INT_MAX : Z := 2 ^ 31 - 1.

(** The result of an [int] operation whose value on the integers is [z]. *)
Definition int (z : Z) : option Z :=
  if (INT_MIN <=? z) && (z <=? INT_MAX) then Some z else None.

(** [(int)f] for a [float] [f]: undefined unless the truncated value fits. *)
Definition int_of_float (f : float) : option Z := z ← Z_of_float f; int z.

Section Line_int.

Context {S : Type}.
Variable visit : S → Z → Z → option S.

(** The loop [for (int x = x0; x <= x1; x++)]: the body runs for the [x] of
    the range, and [x++] is evaluated after each of them, the last
    included. *)
Fixpoint shallow_loop_int (xs : list Z) (y error step dx dy : Z) (s : S)
  : option S :=
  match xs with
  | [] => Some s
  | x :: xs' =>
      s ← visit s x y;
      ye ← (if error >? 0 then
              y' ← int (y + step);
              t ← int (2 * dx);
              error' ← int (error - t);
              Some (y', error')
            else Some (y, error));
      t ← int (2 * dy);
      error ← int (ye.2 + t);
      _ ← int (x + 1);
      shallow_loop_int xs' ye.1 error step dx dy s
  end.

Definition Paint_Line_Shallow_int_with (x0 y0 x1 y1 dx dy : Z) (s : S)
  : option S :=
  let step := if y1 <? y0 then -1 else 1 in
  t ← int (2 * dy);
  error ← int (t - dx);
  shallow_loop_int (range_le x0 x1) y0 error step dx dy s.

Fixpoint steep_loop_int (ys : list Z) (x error step dx dy : Z) (s : S)
  : option S :=
  match ys with
  | [] => Some s
  | y :: ys' =>
      s ← visit s x y;
      xe ← (if error >? 0 then
              x' ← int (x + step);
              t ← int (2 * dy);
              error' ← int (error - t);
              Some (x', error')
            else Some (x, error));
      t ← int (2 * dx);
      error ← int (xe.2 + t);
      _ ← int (y + 1);
      steep_loop_int ys' xe.1 error step dx dy s
  end.

Definition Paint_Line_Steep_int_with (x0 y0 x1 y1 dx dy : Z) (s : S)
  : option S :=
  let step := if x1 <? x0 then -1 else 1 in
  t ← int (2 * dx);
  error ← int (t - dy);
  steep_loop_int (range_le y0 y1) x0 error step dx dy s.

Definition Paint_Line_int_with (x0 y0 x1 y1 : Z) (s : S) : option S :=
  d ← int (x1 - x0);
  dx ← int (Z.abs d);
  d ← int (y1 - y0);
  dy ← int (Z.abs d);
  if dy <=? dx then
    if x0 <=? x1 then Paint_Line_Shallow_int_with x0 y0 x1 y1 dx dy s
    else Paint_Line_Shallow_int_with x1 y1 x0 y0 dx dy s
  else
    if y0 <=? y1 then Paint_Line_Steep_int_with x0 y0 x1 y1 dx dy s
    else Paint_Line_Steep_int_with x1 y1 x0 y0 dx dy s.

End Line_int.

(** The sequence of cells [Paint_Line] visits, on [int]. *)
Definition Paint_Line_int_trace (x0 y0 x1 y1 : Z) : option (list (Z * Z)) :=
  Paint_Line_int_with record x0 y0 x1 y1 [].

(** Coordinates for which no operation of the rasteriser overflows. *)
Definition line_coord (z : Z) : Prop := - 2 ^ 29 < z < 2 ^ 29.

Definition line_range (x0 y0 x1 y1 : Z) : Prop :=
  line_coord x0 ∧ line_coord y0 ∧ line_coord x1 ∧ line_coord y1.

(** Two cells that differ by at most 1 in each axis. *)
Definition adjacent (p q : Z * Z) : Prop :=
  Z.abs (q.1 - p.1) ≤ 1 ∧ Z.abs (q.2 - p.2) ≤ 1.

(** A sequence of cells without gaps. *)
Fixpoint connected (l : list (Z * Z)) : Prop :=
  match l with
  | p :: l' =>
      match l' with
      | q :: _ => adjacent p q ∧ connected l'
      | [] => True
      end
  | [] => True
  end.

Section Simulation.

Variables SIM_WIDTH SIM_HEIGHT : Z.

(** *** Painting one cell *)

Definition Try_Paint_Point (s : Sim) (x y : Z) : option (Sim * bool) :=
  if (x >=? 0) && (y >=? 0) && (x <? SIM_WIDTH) && (y <? SIM_HEIGHT) then
    c ← read (currentState s) x y;
    if negb c then
      g ← write (currentState s) x y true;
      s' ← Add_Rendered_Point (set_currentState s g) x y;
      Some (s', true)
    else Some (s, true)
  else Some (s, false).

(** *** The simulation step *)

(** [n = v; if (n < 0) n = size - 1; if (n == size) n = 0;] *)
Definition wrap (size v : Z) : Z :=
  let n := if v <? 0 then size - 1 else v in
  if n =? size then 0 else n.

(** The inner [dy] loop; [continue] skips the cell itself, [break] leaves
    the loop once the count exceeds 3. *)
Fixpoint count_dy (cur : Grid) (nx y dx : Z) (dys : list Z) (neighbors : Z)
  : option Z :=
  match dys with
  | [] => Some neighbors
  | dy :: dys' =>
      if (dx =? 0) && (dy =? 0) then count_dy cur nx y dx dys' neighbors
      else
        let ny := wrap SIM_HEIGHT (y + dy) in
        c ← read cur nx ny;
        let neighbors := if (c : bool) then neighbors + 1 else neighbors in
        if neighbors >? 3 then Some neighbors
        else count_dy cur nx y dx dys' neighbors
  end.

(** The outer [dx] loop: the [break] above leaves only the inner loop. *)
Fixpoint count_dx (cur : Grid) (x y : Z) (dxs : list Z) (neighbors : Z)
  : option Z :=
  match dxs with
  | [] => Some neighbors
  | dx :: dxs' =>
      let nx := wrap SIM_WIDTH (x + dx) in
      n ← count_dy cur nx y dx (range_le (-1) 1) neighbors;
      count_dx cur x y dxs' n
  end.

Definition count_neighbors (cur : Grid) (x y : Z) : option Z :=
  count_dx cur x y (range_le (-1) 1) 0.

(** The same two loops with the [break] removed: all 8 neighbours are
    always examined. *)
Fixpoint count_dy_exhaustive (cur : Grid) (nx y dx : Z) (dys : list Z)
  (neighbors : Z) : option Z :=
  match dys with
  | [] => Some neighbors
  | dy :: dys' =>
      if (dx =? 0) && (dy =? 0)
      then count_dy_exhaustive cur nx y dx dys' neighbors
      else
        let ny := wrap SIM_HEIGHT (y + dy) in
        c ← read cur nx ny;
        let neighbors := if (c : bool) then neighbors + 1 else neighbors in
        count_dy_exhaustive cur nx y dx dys' neighbors
  end.

Fixpoint count_dx_exhaustive (cur : Grid) (x y : Z) (dxs : list Z)
  (neighbors : Z) : option Z :=
  match dxs with
  | [] => Some neighbors
  | dx :: dxs' =>
      let nx := wrap SIM_WIDTH (x + dx) in
      n ← count_dy_exhaustive cur nx y dx (range_le (-1) 1) neighbors;
      count_dx_exhaustive cur x y dxs' n
  end.

Definition count_neighbors_exhaustive (cur : Grid) (x y : Z) : option Z :=
  count_dx_exhaustive cur x y (range_le (-1) 1) 0.

Section Step.

(** The procedure that counts the live neighbours of a cell. *)
Variable count : Grid → Z → Z → option Z.

Definition write_next (s : Sim) (x y : Z) (v : bool) : option Sim :=
  g ← write (nextState s) x y v; Some (set_nextState s g).

(** The body of the two loops over the cells. *)
Definition update_cell (x y : Z) (s : Sim) : option Sim :=
  neighbors ← count (currentState s) x y;
  c ← read (currentState s) x y;
  if (c : bool) then
    if (neighbors <? 2) || (neighbors >? 3) then write_next s x y false
    else s' ← write_next s x y true; Add_Rendered_Point s' x y
  else
    if neighbors =? 3 then s' ← write_next s x y true; Add_Rendered_Point s' x y
    else write_next s x y false.

Definition Update_Simulation_with (s : Sim) : option Sim :=
  let s := Clear_Rendered_Points s in
  s ← for_each (range_lt 0 SIM_WIDTH)
        (λ x, for_each (range_lt 0 SIM_HEIGHT) (λ y, update_cell x y)) s;
  Some (swap_states s).

End Step.

Definition Update_Simulation : Sim → option Sim :=
  Update_Simulation_with count_neighbors.

(** The step with exhaustive neighbour counting. *)
Definition Update_Simulation_exhaustive : Sim → option Sim :=
  Update_Simulation_with count_neighbors_exhaustive.

(** The state at startup: static storage is zero-initialised. *)
Definition dead_grid : Grid :=
  replicate (Z.to_nat SIM_WIDTH) (replicate (Z.to_nat SIM_HEIGHT) false).

Definition initial_Sim : Sim :=
  mkSim dead_grid dead_grid
        (replicate (Z.to_nat (SIM_WIDTH * SIM_HEIGHT)) (0, 0)) 0 true.

(** A call statement [Try_Paint_Point(x, y);]: the result is dropped. *)
Definition paint (s : Sim) (x y : Z) : option Sim :=
  fst <$> Try_Paint_Point s x y.

Definition Paint_Line_Shallow : Z → Z → Z → Z → Z → Z → Sim → option Sim :=
  Paint_Line_Shallow_with paint.

Definition Paint_Line_Steep : Z → Z → Z → Z → Z → Z → Sim → option Sim :=
  Paint_Line_Steep_with paint.

Definition Paint_Line : Z → Z → Z → Z → Sim → option Sim :=
  Paint_Line_with paint.

(** ** Vocabulary of the properties *)

Definition in_grid (p : Z * Z) : Prop :=
  (0 ≤ p.1 < SIM_WIDTH) ∧ (0 ≤ p.2 < SIM_HEIGHT).

(** The shape the array types give the buffers. *)
Definition wf_grid (g : Grid) : Prop :=
  length g = Z.to_nat SIM_WIDTH ∧
  Forall (λ col, length col = Z.to_nat SIM_HEIGHT) g.

Definition wf_Sim (s : Sim) : Prop :=
  wf_grid (currentState s) ∧ wf_grid (nextState s) ∧
  length (renderPoints s) = Z.to_nat (SIM_WIDTH * SIM_HEIGHT).

(** The cells in the order the two loops of the step visit them. *)
Definition cells : list (Z * Z) :=
  x ← range_lt 0 SIM_WIDTH; pair x <$> range_lt 0 SIM_HEIGHT.

Definition alive (g : Grid) (p : Z * Z) : Prop := read g p.1 p.2 = Some true.

#[global] Instance alive_dec g p : Decision (alive g p).
Proof. unfold alive. apply _. Defined.

Definition live_cells (g : Grid) : list (Z * Z) := filter (alive g) cells.

(** The 8 neighbours of a cell on the torus, and how many of them live. *)
Definition offsets : list (Z * Z) :=
  [(-1, -1); (-1, 0); (-1, 1); (0, -1); (0, 1); (1, -1); (1, 0); (1, 1)].

Definition torus_neighbors (x y : Z) : list (Z * Z) :=
  (λ d, ((x + d.1) `mod` SIM_WIDTH, (y + d.2) `mod` SIM_HEIGHT)) <$> offsets.

Definition live_neighbors (g : Grid) (x y : Z) : Z :=
  Z.of_nat (length (filter (alive g) (torus_neighbors x y))).

(** The transition rule, on the state of a cell and the number of its live
    neighbours. *)
Definition life (c : bool) (n : Z) : bool :=
  if c then (2 <=? n) && (n <=? 3) else n =? 3.

(** The state of a cell in the next generation. *)
Definition next_cell (cur : Grid) (p : Z * Z) : bool :=
  match read cur p.1 p.2 with
  | Some c => life c (live_neighbors cur p.1 p.2)
  | None => false
  end.

(** A neighbour count that decides the rule as the number [live] does: the
    rule only tells the counts 2 and 3 from the others. *)
Definition agrees (n live : Z) : Prop := n = live ∨ (3 < n ∧ 3 < live).

(** What holds in the middle of a step, once the cells [done] are computed. *)
Definition step_inv (cur : Grid) (done : list (Z * Z)) (s : Sim) : Prop :=
  currentState s = cur ∧ wf_grid (nextState s) ∧
  length (renderPoints s) = Z.to_nat (SIM_WIDTH * SIM_HEIGHT) ∧
  (∀ p, p ∈ done → read (nextState s) p.1 p.2 = Some (next_cell cur p)) ∧
  renderPointCount s = Z.of_nat (length (filter (λ p, next_cell cur p) done)) ∧
  render_set s = filter (λ p, next_cell cur p) done.

(** The rasteriser keeps the distance [d] (scaled by [2 * dx]) between the
    cell it visits and the line within half a cell. *)
Definition centred (dx d : Z) : Prop := -dx ≤ d ≤ dx ∧ (0 < dx → -dx < d).

(** ** Reachable states *)

Inductive Op : Type :=
  | OpPaintPoint (x y : Z)
  | OpPaintLine (x0 y0 x1 y1 : Z)
  | OpStep.

Definition run_op (op : Op) (s : Sim) : option Sim :=
  match op with
  | OpPaintPoint x y => paint s x y
  | OpPaintLine x0 y0 x1 y1 => Paint_Line x0 y0 x1 y1 s
  | OpStep => Update_Simulation s
  end.

Inductive reachable : Sim → Prop :=
  | reachable_initial : reachable initial_Sim
  | reachable_op s op s' :
      reachable s → run_op op s = Some s' → reachable s'.

(** The render buffer lists the live cells, each once. *)
Definition Inv (s : Sim) : Prop :=
  wf_Sim s ∧
  renderPointCount s = Z.of_nat (length (live_cells (currentState s))) ∧
  render_set s ≡ₚ live_cells (currentState s).

(** ** The frame tick *)

Definition PaintCells (a : App) : option App :=
  a ← (if mouseDown a then
         mouseCellX ← Z_of_float (float_div (mouseX a) (float_of_Z RENDER_SCALE));
         mouseCellY ← Z_of_float (float_div (mouseY a) (float_of_Z RENDER_SCALE));
         s ← (if mouseWasDown a
              then Paint_Line (lastMouseCellX a) (lastMouseCellY a)
                              mouseCellX mouseCellY (sim a)
              else paint (sim a) mouseCellX mouseCellY);
         Some (set_lastMouseCell (set_sim a s) mouseCellX mouseCellY)
       else Some a);
  Some (set_mouseWasDown a (mouseDown a)).

(** The frame tick, over the procedure [update] it calls to advance the
    simulation; [now] is what [SDL_GetTicks] returns, a 64-bit unsigned
    number of milliseconds.  The calls that draw are left out: they do not
    change the state. *)
Definition SDL_AppIterate_with (update : Sim → option Sim) (now : Z) (a : App)
  : option App :=
  a ← PaintCells a;
  a ← (if float_lt (float_of_Z 0) (steps_per_second a) then
         let elapsed :=
           float_div (float_of_Z ((now - last_step_time a) `mod` 2 ^ 64))
                     (float_of_Z 1000) in
         let seconds_per_step := float_div (float_of_Z 1) (steps_per_second a) in
         if float_le seconds_per_step elapsed then
           s ← update (sim a);
           Some (set_last_step_time (set_sim a s) now)
         else Some a
       else Some a);
  Some (if needs_new_render (sim a) then set_sim a (rendered (sim a)) else a).

Definition SDL_AppIterate : Z → App → option App :=
  SDL_AppIterate_with Update_Simulation.

(** A procedure that cannot be called without a fault. *)
Definition never_called : Sim → option Sim := λ _, None.

(** Frame ticks at the times [nows], one after the other. *)
Definition frames (update : Sim → option Sim) (nows : list Z) (a : App)
  : option App :=
  for_each nows (SDL_AppIterate_with update) a.

(** The state when [SDL_AppInit] returns at time [t0]. *)
Definition initial_App (t0 : Z) : App :=
  mkApp initial_Sim t0 (S754_zero false) false (S754_zero false)
        (S754_zero false) 0 0 false.

(** The inputs of the program: events and frame ticks.  A wheel event
    carries a scroll amount, which is a number. *)
Inductive Input : Type :=
  | InEvent (event : SDL_Event)
  | InFrame (now : Z).

Definition input_ok (i : Input) : Prop :=
  match i with
  | InEvent (SDL_EVENT_MOUSE_WHEEL delta) => delta ≠ S754_nan
  | _ => True
  end.

Definition run_input (i : Input) (a : App) : option App :=
  match i with
  | InEvent event => Some (SDL_AppEvent a event).1
  | InFrame now => SDL_AppIterate now a
  end.

Inductive app_reachable : App → Prop :=
  | app_reachable_initial t0 : app_reachable (initial_App t0)
  | app_reachable_input a i a' :
      app_reachable a → input_ok i → run_input i a = Some a' →
      app_reachable a'.

(** ** The program on [int] *)

Definition Paint_Line_Shallow_int : Z → Z → Z → Z → Z → Z → Sim → option Sim :=
  Paint_Line_Shallow_int_with paint.

Definition Paint_Line_Steep_int : Z → Z → Z → Z → Z → Z → Sim → option Sim :=
  Paint_Line_Steep_int_with paint.

Definition Paint_Line_int : Z → Z → Z → Z → Sim → option Sim :=
  Paint_Line_int_with paint.

Definition PaintCells_int (a : App) : option App :=
  a ← (if mouseDown a then
         mouseCellX ← int_of_float (float_div (mouseX a) (float_of_Z RENDER_SCALE));
         mouseCellY ← int_of_float (float_div (mouseY a) (float_of_Z RENDER_SCALE));
         s ← (if mouseWasDown a
              then Paint_Line_int (lastMouseCellX a) (lastMouseCellY a)
                                  mouseCellX mouseCellY (sim a)
              else paint (sim a) mouseCellX mouseCellY);
         Some (set_lastMouseCell (set_sim a s) mouseCellX mouseCellY)
       else Some a);
  Some (set_mouseWasDown a (mouseDown a)).

Definition SDL_AppIterate_int (now : Z) (a : App) : option App :=
  a ← PaintCells_int a;
  a ← (if float_lt (float_of_Z 0) (steps_per_second a) then
         let elapsed :=
           float_div (float_of_Z ((now - last_step_time a) `mod` 2 ^ 64))
                     (float_of_Z 1000) in
         let seconds_per_step := float_div (float_of_Z 1) (steps_per_second a) in
         if float_le seconds_per_step elapsed then
           s ← Update_Simulation (sim a);
           Some (set_last_step_time (set_sim a s) now)
         else Some a
       else Some a);
  Some (if needs_new_render (sim a) then set_sim a (rendered (sim a)) else a).

Definition run_input_int (i : Input) (a : App) : option App :=
  match i with
  | InEvent event => Some (SDL_AppEvent a event).1
  | InFrame now => SDL_AppIterate_int now a
  end.

Inductive app_reachable_int : App → Prop :=
  | app_reachable_int_initial t0 : app_reachable_int (initial_App t0)
  | app_reachable_int_input a i a' :
      app_reachable_int a → input_ok i → run_input_int i a = Some a' →
      app_reachable_int a'.

(** The cell under the pointer, as an [int] pair. *)
Definition pointer_cell_int (a : App) : option (Z * Z) :=
  x ← int_of_float (float_div (mouseX a) (float_of_Z RENDER_SCALE));
  y ← int_of_float (float_div (mouseY a) (float_of_Z RENDER_SCALE));
  Some (x, y).

(** The pointer of a frame in which painting is defined: with the button
    down its position has a cell, and the stroke from the cell of the last
    frame, if there is one, does not overflow. *)
Definition pointer_ok (a : App) : Prop :=
  mouseDown a = true →
  ∃ cx cy, pointer_cell_int a = Some (cx, cy) ∧
    (mouseWasDown a = true →
     line_range (lastMouseCellX a) (lastMouseCellY a) cx cy).

(** The next generation of a grid, cell by cell. *)
Definition next_generation (cur : Grid) : Grid :=
  (λ x, (λ y, next_cell cur (x, y)) <$> range_lt 0 SIM_HEIGHT) <$>
    range_lt 0 SIM_WIDTH.

(** * Properties *)

(** ** Loops *)

Lemma for_each_app {A S} (l1 l2 : list A) (f : A → S → option S) s :
  for_each (l1 ++ l2) f s = for_each l1 f s ≫= for_each l2 f.
Proof.
  revert s. induction l1 as [|a l1 IH]; intros s; simpl; [done|].
  destruct (f a s) as [s'|]; simpl; [apply IH|done].
Qed.

Lemma for_each_fmap {A B S} (h : A → B) (l : list A) (f : B → S → option S) s :
  for_each (h <$> l) f s = for_each l (λ a, f (h a)) s.
Proof.
  revert s. induction l as [|a l IH]; intros s; simpl; [done|].
  destruct (f (h a) s); simpl; auto.
Qed.

(** Two nested loops are one loop over the pairs, in the same order. *)
Lemma for_each_nested {S} (xs ys : list Z) (f : Z → Z → S → option S) s :
  for_each xs (λ x, for_each ys (f x)) s =
  for_each (x ← xs; pair x <$> ys) (λ p, f p.1 p.2) s.
Proof.
  revert s. induction xs as [|x xs IH]; intros s; [done|].
  change (x ← x :: xs; pair x <$> ys)
    with ((pair x <$> ys) ++ (x ← xs; pair x <$> ys)).
  rewrite for_each_app, for_each_fmap. simpl.
  destruct (for_each ys (f x) s); simpl; auto.
Qed.

(** A loop keeps what each iteration keeps, and does not fault if no
    iteration does. *)
Lemma for_each_invariant {A S} (I : S → Prop) (l : list A) (f : A → S → option S) s :
  (∀ a s, a ∈ l → I s → ∃ s', f a s = Some s' ∧ I s') →
  I s → ∃ s', for_each l f s = Some s' ∧ I s'.
Proof.
  revert s. induction l as [|a l IH]; intros s Hf Hs; simpl; [eauto|].
  destruct (Hf a s) as (s1 & -> & H1); [left|done|]. simpl.
  apply IH; [|done]. intros b t Hb. apply Hf. by right.
Qed.

(** Two loop bodies that agree on the states an invariant describes. *)
Lemma for_each_ext_inv {A S} (I : S → Prop) (l : list A) (f g : A → S → option S) s :
  (∀ a s, a ∈ l → I s → f a s = g a s) →
  (∀ a s s', a ∈ l → I s → f a s = Some s' → I s') →
  I s → for_each l f s = for_each l g s.
Proof.
  revert s. induction l as [|a l IH]; intros s Hfg Hf Hs; simpl; [done|].
  rewrite <- (Hfg a s) by (done || left).
  destruct (f a s) as [s1|] eqn:E; simpl; [|done].
  apply IH.
  - intros b t Hb. apply Hfg. by right.
  - intros b t t' Hb. apply Hf. by right.
  - eapply Hf; [left|done..].
Qed.

(** ** Array accesses *)

Lemma index_Some i : 0 ≤ i → index i = Some (Z.to_nat i).
Proof. intros. unfold index. case_match; [done|lia]. Qed.

Lemma index_None i : i < 0 → index i = None.
Proof. intros. unfold index. case_match; [lia|done]. Qed.

Lemma wf_grid_lookup g i :
  wf_grid g → (i < Z.to_nat SIM_WIDTH)%nat →
  ∃ col, g !! i = Some col ∧ length col = Z.to_nat SIM_HEIGHT.
Proof.
  intros [Hl Hc] Hi.
  destruct (lookup_lt_is_Some_2 g i) as [col Hcol]; [lia|].
  exists col. split; [done|].
  by apply (Forall_lookup_1 (λ c, length c = Z.to_nat SIM_HEIGHT) g i col).
Qed.

Lemma read_is_Some g x y :
  wf_grid g → in_grid (x, y) → is_Some (read g x y).
Proof.
  intros Hg [Hx Hy]. simpl in *. unfold read.
  rewrite !index_Some by lia. simpl.
  destruct (wf_grid_lookup g (Z.to_nat x)) as (col & -> & Hcol); [done|lia|].
  simpl. apply lookup_lt_is_Some_2. lia.
Qed.

Lemma write_spec g x y v :
  wf_grid g → in_grid (x, y) →
  ∃ g', write g x y v = Some g' ∧ wf_grid g' ∧ read g' x y = Some v ∧
        ∀ x' y', (x', y') ≠ (x, y) → read g' x' y' = read g x' y'.
Proof.
  intros Hg [Hx Hy]. simpl in *. unfold write.
  rewrite !index_Some by lia. simpl.
  destruct (wf_grid_lookup g (Z.to_nat x)) as (col & Hcol & Hlen); [done|lia|].
  rewrite Hcol. simpl. rewrite decide_True by lia.
  eexists. split; [done|]. split; [|split].
  - destruct Hg as [Hl Hc]. split; [by rewrite length_insert|].
    apply Forall_insert; [done|]. cbv beta. by rewrite length_insert.
  - unfold read. rewrite !index_Some by lia. simpl.
    rewrite list_lookup_insert_eq by (apply lookup_lt_is_Some_1; eauto).
    simpl. apply list_lookup_insert_eq. lia.
  - intros x' y' Hne. unfold read.
    destruct (decide (0 ≤ x')); [|by rewrite (index_None x') by lia].
    destruct (decide (0 ≤ y'));
      [|by rewrite (index_None y'), index_Some by lia].
    rewrite !index_Some by lia. simpl.
    destruct (decide (Z.to_nat x = Z.to_nat x')) as [E|E].
    + rewrite <- E, Hcol.
      rewrite list_lookup_insert_eq by (apply lookup_lt_is_Some_1; eauto).
      simpl. apply list_lookup_insert_ne.
      intros E'. apply Hne. f_equal; lia.
    + by rewrite list_lookup_insert_ne.
Qed.

(** Two grids of the same shape with the same cells are the same grid. *)
Lemma grid_ext g1 g2 :
  wf_grid g1 → wf_grid g2 →
  (∀ x y, in_grid (x, y) → read g1 x y = read g2 x y) → g1 = g2.
Proof.
  intros H1 H2 Hrd. apply list_eq. intros i.
  destruct (decide (i < Z.to_nat SIM_WIDTH)%nat) as [Hi|Hi].
  - destruct (wf_grid_lookup g1 i) as (c1 & E1 & L1); [done..|].
    destruct (wf_grid_lookup g2 i) as (c2 & E2 & L2); [done..|].
    rewrite E1, E2. f_equal. apply list_eq. intros j.
    destruct (decide (j < Z.to_nat SIM_HEIGHT)%nat) as [Hj|Hj].
    + specialize (Hrd (Z.of_nat i) (Z.of_nat j)). unfold read in Hrd.
      rewrite !index_Some, !Nat2Z.id in Hrd by lia. simpl in Hrd.
      rewrite E1, E2 in Hrd. simpl in Hrd. apply Hrd.
      split; simpl; lia.
    + rewrite !lookup_ge_None_2 by lia. done.
  - destruct H1 as [H1 _], H2 as [H2 _].
    rewrite !lookup_ge_None_2 by lia. done.
Qed.

(** ** The cells of the grid *)

Lemma elem_of_cells p : p ∈ cells ↔ in_grid p.
Proof.
  unfold cells, in_grid, range_lt. rewrite list_elem_of_bind. split.
  - intros (x & Hp & Hx). apply list_elem_of_fmap in Hp as (y & -> & Hy).
    rewrite elem_of_seqZ in Hx, Hy. simpl. lia.
  - destruct p as [x y]. simpl. intros [Hx Hy]. exists x. split.
    + apply list_elem_of_fmap. exists y. split; [done|]. apply elem_of_seqZ. lia.
    + apply elem_of_seqZ. lia.
Qed.

Lemma NoDup_cells : NoDup cells.
Proof.
  unfold cells. apply NoDup_bind.
  - intros x1 x2 p _ _ H1 H2.
    apply list_elem_of_fmap in H1 as (? & -> & _).
    apply list_elem_of_fmap in H2 as (? & E & _). by inversion E.
  - intros x _. apply NoDup_fmap_2; [|apply NoDup_seqZ]. by intros ?? [=].
  - apply NoDup_seqZ.
Qed.

Lemma length_cells_le : (length cells ≤ Z.to_nat (SIM_WIDTH * SIM_HEIGHT))%nat.
Proof.
  assert (∀ xs : list Z,
    length (x ← xs; pair x <$> range_lt 0 SIM_HEIGHT) =
    (length xs * Z.to_nat SIM_HEIGHT)%nat) as E.
  { induction xs as [|x xs IH]; [done|].
    change (x ← x :: xs; pair x <$> range_lt 0 SIM_HEIGHT)
      with ((pair x <$> range_lt 0 SIM_HEIGHT) ++
            (x ← xs; pair x <$> range_lt 0 SIM_HEIGHT)).
    rewrite length_app, IH, length_fmap. unfold range_lt.
    rewrite length_seqZ. simpl. f_equal. lia. }
  unfold cells. rewrite E. unfold range_lt. rewrite length_seqZ. nia.
Qed.

Lemma filter_ext_elem {A} (P Q : A → Prop) `{∀ x, Decision (P x)}
  `{∀ x, Decision (Q x)} (l : list A) :
  (∀ x, x ∈ l → P x ↔ Q x) → filter P l = filter Q l.
Proof.
  induction l as [|a l IH]; intros HPQ; [done|].
  rewrite !filter_cons.
  assert (P a ↔ Q a) as Ha by (apply HPQ; left).
  rewrite IH by (intros; apply HPQ; by right).
  destruct (decide (P a)), (decide (Q a)); tauto.
Qed.

(** ** Counting the neighbours *)

Lemma wrap_mod size x d :
  0 ≤ x < size → -1 ≤ d ≤ 1 → wrap size (x + d) = (x + d) `mod` size.
Proof.
  intros Hx Hd. unfold wrap.
  destruct (Z.ltb_spec (x + d) 0).
  - assert (x + d = -1) as -> by lia.
    rewrite (proj2 (Z.eqb_neq _ _)) by lia.
    apply Z.mod_unique with (-1); lia.
  - destruct (Z.eqb_spec (x + d) size) as [E|E].
    + rewrite E. symmetry. apply Z_mod_same_full.
    + symmetry. apply Z.mod_small. lia.
Qed.

Lemma in_grid_torus x y dx dy :
  in_grid (x, y) → in_grid ((x + dx) `mod` SIM_WIDTH, (y + dy) `mod` SIM_HEIGHT).
Proof.
  intros [Hx Hy]. simpl in *.
  split; simpl; apply Z.mod_pos_bound; lia.
Qed.

Lemma filter_alive_cons g p l b :
  read g p.1 p.2 = Some b →
  filter (alive g) (p :: l) = if b then p :: filter (alive g) l else filter (alive g) l.
Proof.
  intros E. rewrite filter_cons. unfold alive at 1.
  destruct (decide _) as [E'|E']; rewrite E in E'; destruct b; congruence.
Qed.

Local Arguments read : simpl never.
Local Arguments wrap : simpl never.

Lemma neighbor_reads g x y :
  wf_grid g → in_grid (x, y) →
  Forall (λ p, is_Some (read g p.1 p.2)) (torus_neighbors x y).
Proof.
  intros Hg Hp. unfold torus_neighbors. apply Forall_fmap, Forall_forall.
  intros d _. simpl. by apply read_is_Some, in_grid_torus.
Qed.

Ltac count_cases g x y Hg Hp :=
  pose proof (neighbor_reads g x y Hg Hp) as Hrd;
  destruct Hp as [Hx Hy]; simpl in Hx, Hy;
  unfold live_neighbors, torus_neighbors, offsets in *;
  change (range_le (-1) 1) with [-1; 0; 1];
  cbn [count_dx count_dx_exhaustive];
  change (range_le (-1) 1) with [-1; 0; 1];
  cbn [fmap list_fmap fst snd] in *;
  repeat match goal with
    | H : Forall _ (_ :: _) |- _ =>
        apply Forall_cons in H as [[[] ?] H]
    end;
  cbn [fst snd] in *; clear Hrd;
  repeat (erewrite filter_alive_cons by (cbn [fst snd]; eassumption));
  rewrite filter_nil; simpl; rewrite !wrap_mod by lia;
  repeat match goal with
    | H : read _ _ _ = Some _ |- _ => rewrite !H; clear H; simpl
    end.

Lemma count_neighbors_spec g x y :
  wf_grid g → in_grid (x, y) →
  ∃ n, count_neighbors g x y = Some n ∧ agrees n (live_neighbors g x y).
Proof.
  intros Hg Hp. unfold count_neighbors, agrees.
  count_cases g x y Hg Hp.
  all: eexists; (split; [reflexivity|]); lia.
Qed.

Lemma count_neighbors_exhaustive_spec g x y :
  wf_grid g → in_grid (x, y) →
  count_neighbors_exhaustive g x y = Some (live_neighbors g x y).
Proof.
  intros Hg Hp. unfold count_neighbors_exhaustive.
  count_cases g x y Hg Hp; reflexivity.
Qed.

Lemma life_agrees c n m : agrees n m → life c n = life c m.
Proof.
  intros [->|[Hn Hm]]; [done|]. unfold life. destruct c.
  - rewrite (proj2 (Z.leb_gt n 3)), (proj2 (Z.leb_gt m 3)) by lia.
    by rewrite !andb_false_r.
  - rewrite !(proj2 (Z.eqb_neq _ _)) by lia. done.
Qed.

(** ** One step *)

Section Step_with.

Variable count : Grid → Z → Z → option Z.
Hypothesis count_agrees : ∀ g x y,
  wf_grid g → in_grid (x, y) →
  ∃ n, count g x y = Some n ∧ agrees n (live_neighbors g x y).

Lemma update_cell_spec x y s :
  wf_grid (currentState s) → wf_grid (nextState s) → in_grid (x, y) →
  0 ≤ renderPointCount s →
  (Z.to_nat (renderPointCount s) < length (renderPoints s))%nat →
  ∃ g', write (nextState s) x y (next_cell (currentState s) (x, y)) = Some g' ∧
    update_cell count x y s =
    Some (if next_cell (currentState s) (x, y)
          then mkSim (currentState s) g'
                 (<[Z.to_nat (renderPointCount s) := (x, y)]> (renderPoints s))
                 (renderPointCount s + 1) true
          else mkSim (currentState s) g' (renderPoints s)
                 (renderPointCount s) (needs_new_render s)).
Proof.
  intros Hc Hn Hp Hlo Hhi.
  destruct (write_spec (nextState s) x y (next_cell (currentState s) (x, y)))
    as (g' & Hw & _); [done..|].
  exists g'. split; [done|].
  destruct (count_agrees _ x y Hc Hp) as (n & Hcount & Hn').
  destruct (read_is_Some _ x y Hc Hp) as [c Hrd].
  unfold update_cell. rewrite Hcount, Hrd. simpl.
  unfold next_cell in *. simpl in *. rewrite Hrd in *.
  rewrite <- (life_agrees c _ _ Hn') in *.
  assert (∀ b, write (nextState s) x y b = Some g' →
    (s' ← write_next s x y b;
     if b then Add_Rendered_Point s' x y else Some s') =
    Some (if b
          then mkSim (currentState s) g'
                 (<[Z.to_nat (renderPointCount s) := (x, y)]> (renderPoints s))
                 (renderPointCount s + 1) true
          else mkSim (currentState s) g' (renderPoints s)
                 (renderPointCount s) (needs_new_render s))) as Hb.
  { intros b Hwb. unfold write_next. rewrite Hwb. simpl.
    destruct b; [|done]. unfold Add_Rendered_Point. simpl.
    rewrite index_Some by done. simpl. by rewrite decide_True by done. }
  rewrite <- (Hb _ Hw). unfold life.
  destruct c.
  - destruct (Z.leb_spec 2 n), (Z.leb_spec n 3),
      (Z.ltb_spec n 2), (Z.gtb_spec n 3); try lia; simpl;
      by destruct (write_next _ _ _ _).
  - destruct (n =? 3); simpl; by destruct (write_next _ _ _ _).
Qed.

Lemma render_set_add s x y :
  0 ≤ renderPointCount s →
  (Z.to_nat (renderPointCount s) < length (renderPoints s))%nat →
  take (Z.to_nat (renderPointCount s + 1))
       (<[Z.to_nat (renderPointCount s) := (x, y)]> (renderPoints s)) =
  render_set s ++ [(x, y)].
Proof.
  intros Hlo Hhi. unfold render_set.
  replace (Z.to_nat (renderPointCount s + 1))
    with (S (Z.to_nat (renderPointCount s))) by lia.
  rewrite (take_S_r _ _ (x, y)) by (by apply list_lookup_insert_eq).
  by rewrite take_insert_ge.
Qed.

Lemma step_loop cur todo : ∀ done s,
  wf_grid cur → NoDup (done ++ todo) → (∀ p, p ∈ todo → in_grid p) →
  (length done + length todo ≤ Z.to_nat (SIM_WIDTH * SIM_HEIGHT))%nat →
  step_inv cur done s →
  ∃ s', for_each todo (λ p, update_cell count p.1 p.2) s = Some s' ∧
        step_inv cur (done ++ todo) s'.
Proof.
  induction todo as [|[x y] todo IH]; intros done s Hcur Hnd Hin Hlen Hinv.
  { exists s. by rewrite app_nil_r. }
  destruct Hinv as (Hc & Hn & Hrp & Hcells & Hcnt & Hset).
  assert (in_grid (x, y)) as Hxy by (apply Hin; left).
  assert ((x, y) ∉ done) as Hfresh.
  { apply NoDup_app in Hnd as (_ & Hd & _). intros ?. eapply Hd; [done|left]. }
  pose proof (length_filter (λ p, next_cell cur p) done) as Hle.
  simpl in Hlen.
  destruct (update_cell_spec x y s) as (g' & Hw & Hupd);
    [by rewrite Hc|done|done|lia|lia|].
  rewrite Hc in Hw, Hupd.
  destruct (write_spec (nextState s) x y (next_cell cur (x, y)))
    as (g'' & Hw' & Hwf & Hrd & Hother); [done..|].
  rewrite Hw in Hw'. injection Hw' as <-.
  cbn [for_each fst snd]. rewrite Hupd. simpl.
  replace (done ++ (x, y) :: todo) with ((done ++ [(x, y)]) ++ todo)
    by (by rewrite <- app_assoc).
  apply IH; [done|by rewrite <- app_assoc|intros; apply Hin; by right| |].
  { rewrite length_app. simpl. lia. }
  assert (∀ p, p ∈ done ++ [(x, y)] →
               read g' p.1 p.2 = Some (next_cell cur p)) as Hcells'.
  { intros p [Hp|Hp]%elem_of_app.
    - rewrite Hother; [by apply Hcells|]. destruct p. simpl. congruence.
    - apply list_elem_of_singleton in Hp as ->. done. }
  unfold step_inv. rewrite filter_app, filter_cons, filter_nil, length_app.
  destruct (next_cell cur (x, y)) eqn:E.
  - rewrite decide_True by done. simpl.
    split_and!; try done.
    + by rewrite length_insert.
    + lia.
    + unfold render_set at 1. simpl. rewrite render_set_add by lia.
      by rewrite Hset.
  - rewrite decide_False by (by intros ?). simpl.
    split_and!; try done.
    + lia.
    + rewrite app_nil_r. done.
Qed.

Lemma live_cells_next cur g' :
  (∀ p, in_grid p → read g' p.1 p.2 = Some (next_cell cur p)) →
  live_cells g' = filter (λ p, next_cell cur p) cells.
Proof.
  intros Hg. unfold live_cells. apply filter_ext_elem.
  intros p Hp%elem_of_cells. unfold alive. rewrite Hg by done.
  destruct (next_cell cur p); simpl; split; (done || congruence).
Qed.

(** The step does not fault, and computes the next generation and the list
    of its live cells. *)
Lemma Update_Simulation_with_spec s :
  wf_Sim s →
  ∃ s', Update_Simulation_with count s = Some s' ∧
    wf_Sim s' ∧ nextState s' = currentState s ∧
    (∀ x y, in_grid (x, y) →
       read (currentState s') x y = Some (next_cell (currentState s) (x, y))) ∧
    renderPointCount s' = Z.of_nat (length (live_cells (currentState s'))) ∧
    render_set s' = live_cells (currentState s').
Proof.
  intros (Hc & Hn & Hrp). unfold Update_Simulation_with.
  rewrite (for_each_nested _ _ (update_cell count)). fold cells.
  destruct (step_loop (currentState s) cells [] (Clear_Rendered_Points s))
    as (s1 & -> & Hinv); simpl.
  - done.
  - apply NoDup_cells.
  - intros p. apply elem_of_cells.
  - apply length_cells_le.
  - unfold step_inv. simpl. split_and!; try done. by intros p ?%elem_of_nil.
  - destruct Hinv as (Hc1 & Hn1 & Hrp1 & Hcells & Hcnt & Hset).
    assert (∀ p, in_grid p →
      read (nextState s1) p.1 p.2 = Some (next_cell (currentState s) p)) as Hg
      by (intros p ?%elem_of_cells; by apply Hcells).
    eexists. split; [done|]. unfold wf_Sim. simpl.
    rewrite (live_cells_next (currentState s)) by done.
    rewrite Hc1. split_and!; try done.
    intros x y Hp. apply (Hg (x, y) Hp).
Qed.

End Step_with.

Lemma Update_Simulation_spec s :
  wf_Sim s →
  ∃ s', Update_Simulation s = Some s' ∧
    wf_Sim s' ∧ nextState s' = currentState s ∧
    (∀ x y, in_grid (x, y) →
       read (currentState s') x y = Some (next_cell (currentState s) (x, y))) ∧
    renderPointCount s' = Z.of_nat (length (live_cells (currentState s'))) ∧
    render_set s' = live_cells (currentState s').
Proof. apply Update_Simulation_with_spec, count_neighbors_spec. Qed.

Lemma Update_Simulation_exhaustive_spec s :
  wf_Sim s →
  ∃ s', Update_Simulation_exhaustive s = Some s' ∧
    wf_Sim s' ∧ nextState s' = currentState s ∧
    (∀ x y, in_grid (x, y) →
       read (currentState s') x y = Some (next_cell (currentState s) (x, y))) ∧
    renderPointCount s' = Z.of_nat (length (live_cells (currentState s'))) ∧
    render_set s' = live_cells (currentState s').
Proof.
  apply Update_Simulation_with_spec. intros g x y Hg Hp.
  exists (live_neighbors g x y). split; [|by left].
  by apply count_neighbors_exhaustive_spec.
Qed.

(** C1: after one step, a cell with exactly 3 live neighbours on the torus
    is alive, a cell with exactly 2 keeps its state, and a cell with 0, 1, or
    4 or more is dead. *)
Theorem Update_Simulation_rule s :
  wf_Sim s →
  ∃ s', Update_Simulation s = Some s' ∧
    ∀ x y, in_grid (x, y) →
      let n := live_neighbors (currentState s) x y in
      (n = 3 → read (currentState s') x y = Some true) ∧
      (n = 2 → read (currentState s') x y = read (currentState s) x y) ∧
      (n < 2 ∨ 4 ≤ n → read (currentState s') x y = Some false).
Proof.
  intros Hs. destruct (Update_Simulation_spec s Hs) as (s' & Hs' & _ & _ & Hg & _).
  exists s'. split; [done|]. intros x y Hp n.
  rewrite (Hg x y Hp). unfold next_cell. simpl. fold n.
  destruct Hs as (Hc & _).
  destruct (read_is_Some _ x y Hc Hp) as [c ->].
  unfold life. split_and!.
  - intros ->. by destruct c.
  - intros ->. by destruct c.
  - intros Hn. f_equal. destruct c.
    + destruct (Z.leb_spec 2 n), (Z.leb_spec n 3); simpl; lia || done.
    + apply Z.eqb_neq. lia.
Qed.

Lemma update_cell_currentState count x y s s' :
  update_cell count x y s = Some s' → currentState s' = currentState s.
Proof.
  unfold update_cell, write_next, Add_Rendered_Point. intros Hs.
  repeat (simplify_option_eq || case_match); done.
Qed.

Lemma update_cell_agree x y s :
  wf_grid (currentState s) → in_grid (x, y) →
  update_cell count_neighbors x y s = update_cell count_neighbors_exhaustive x y s.
Proof.
  intros Hc Hp. unfold update_cell.
  destruct (count_neighbors_spec _ x y Hc Hp) as (n & -> & Hn).
  rewrite (count_neighbors_exhaustive_spec _ x y Hc Hp). simpl.
  destruct (read (currentState s) x y) as [c|]; [simpl|done].
  destruct Hn as [->|[Hn Hm]]; [done|].
  rewrite !(proj2 (Z.gtb_gt _ _)), !orb_true_r by lia.
  rewrite !(proj2 (Z.eqb_neq _ _)) by lia. done.
Qed.

(** C3: the step with the early exit from neighbour counting and the step
    that always examines all 8 neighbours produce the same state. *)
Theorem Update_Simulation_early_exit s :
  wf_Sim s →
  ∃ s', Update_Simulation s = Some s' ∧ Update_Simulation_exhaustive s = Some s'.
Proof.
  intros Hs. destruct (Update_Simulation_spec s Hs) as (s' & Hs' & _).
  exists s'. split; [done|]. rewrite <- Hs'.
  unfold Update_Simulation_exhaustive, Update_Simulation, Update_Simulation_with.
  rewrite !(for_each_nested _ _ (update_cell _)). fold cells.
  rewrite (for_each_ext_inv (λ t, currentState t = currentState s) cells _
             (λ p, update_cell count_neighbors p.1 p.2)); [done| | |done].
  - intros [x y] t Hp%elem_of_cells Ht. symmetry. apply update_cell_agree; [|done].
    rewrite Ht. apply Hs.
  - intros [x y] t t' _ Ht Hupd.
    apply update_cell_currentState in Hupd. congruence.
Qed.

Lemma wf_next_generation cur : wf_grid (next_generation cur).
Proof.
  unfold wf_grid, next_generation, range_lt. split.
  - rewrite length_fmap, length_seqZ. lia.
  - apply Forall_fmap, Forall_forall. intros x _. unfold compose.
    rewrite length_fmap, length_seqZ. lia.
Qed.

Lemma read_next_generation cur x y :
  in_grid (x, y) → read (next_generation cur) x y = Some (next_cell cur (x, y)).
Proof.
  intros [Hx Hy]. simpl in *. unfold read, next_generation, range_lt.
  rewrite !index_Some by lia. simpl.
  rewrite list_lookup_fmap, (lookup_seqZ_lt _ _ (Z.to_nat x)) by lia. simpl.
  rewrite list_lookup_fmap, (lookup_seqZ_lt _ _ (Z.to_nat y)) by lia. simpl.
  do 3 f_equal; lia.
Qed.

(** The step leaves the next generation in the grid, whatever the other
    buffer held. *)
Lemma Update_Simulation_next_generation s :
  wf_Sim s →
  ∃ s', Update_Simulation s = Some s' ∧
    currentState s' = next_generation (currentState s) ∧
    nextState s' = currentState s ∧
    render_set s' = live_cells (next_generation (currentState s)).
Proof.
  intros Hs.
  destruct (Update_Simulation_spec s Hs) as (s' & E & W & Hn & G & _ & R).
  assert (currentState s' = next_generation (currentState s)) as Hc.
  { apply grid_ext; [apply W|apply wf_next_generation|].
    intros x y Hp. by rewrite (G x y), read_next_generation. }
  exists s'. split_and!; try done. by rewrite R, Hc.
Qed.

(** C4: the step assigns every cell of the other buffer and then swaps the
    buffers: after it every cell of the grid holds the value the rule gives
    for the old grid, whatever the other buffer held, and the other buffer
    is the old grid.  So two runs from the same grid and different contents
    of the other buffer end in the same grid. *)
Theorem Update_Simulation_next_irrelevant s1 s2 :
  wf_Sim s1 → wf_Sim s2 → currentState s1 = currentState s2 →
  ∃ s1' s2', Update_Simulation s1 = Some s1' ∧ Update_Simulation s2 = Some s2' ∧
    currentState s1' = next_generation (currentState s1) ∧
    currentState s2' = next_generation (currentState s1) ∧
    (∀ x y, in_grid (x, y) →
       read (currentState s1') x y = Some (next_cell (currentState s1) (x, y)) ∧
       read (currentState s2') x y = Some (next_cell (currentState s1) (x, y))) ∧
    nextState s1' = currentState s1 ∧ nextState s2' = currentState s1 ∧
    currentState s1' = currentState s2' ∧ render_set s1' = render_set s2'.
Proof.
  intros H1 H2 E.
  destruct (Update_Simulation_next_generation s1 H1) as (s1' & E1 & C1 & N1 & R1).
  destruct (Update_Simulation_next_generation s2 H2) as (s2' & E2 & C2 & N2 & R2).
  rewrite <- E in C2, N2, R2.
  exists s1', s2'. split_and!; try done; try congruence.
  intros x y Hp. rewrite C1, C2. by rewrite read_next_generation.
Qed.

(** ** The line rasteriser *)

Lemma for_each_record pts tr :
  for_each pts (λ p tr, record tr p.1 p.2) tr = Some (tr ++ pts).
Proof.
  revert tr. induction pts as [|[x y] pts IH]; intros tr; simpl.
  - by rewrite app_nil_r.
  - rewrite IH. by rewrite <- app_assoc.
Qed.

Lemma connected_cons p q l :
  adjacent p q → head l = Some q → connected l → connected (p :: l).
Proof. destruct l as [|q' l]; [done|]. intros ? [= ->] ?. by split. Qed.

Lemma connected_swap l : connected l → connected (prod_swap <$> l).
Proof.
  induction l as [|p [|q l] IH]; [done..|].
  intros [[H1 H2] Hl]. split; [|by apply IH].
  destruct p, q. by split.
Qed.

(** The steep loop is the shallow loop with the two axes exchanged. *)
Lemma steep_loop_shallow {St} (visit : St → Z → Z → option St) ys :
  ∀ x error step dx dy s,
  steep_loop visit ys x error step dx dy s =
  shallow_loop (λ s a b, visit s b a) ys x error step dy dx s.
Proof.
  induction ys as [|y ys IH]; intros; simpl; [done|].
  destruct (visit s x y); simpl; [|done].
  destruct (error >? 0); apply IH.
Qed.

Section Shallow.

Variables dx dy step : Z.
Hypothesis slope : 0 ≤ dy ≤ dx.
Hypothesis unit_step : step = 1 ∨ step = -1.

Lemma shallow_loop_points n : ∀ x y e,
  centred dx (e - 2 * dy + dx) →
  ∃ pts j,
    (∀ St (visit : St → Z → Z → option St) s,
       shallow_loop visit (seqZ x (Z.of_nat (S n))) y e step dx dy s =
       for_each pts (λ p s, visit s p.1 p.2) s) ∧
    head pts = Some (x, y) ∧
    last pts = Some (x + Z.of_nat n, y + step * j) ∧
    0 ≤ j ≤ Z.of_nat n ∧
    centred dx (e - 2 * dy + dx + 2 * dy * Z.of_nat n - 2 * dx * j) ∧
    connected pts.
Proof.
  induction n as [|n IH]; intros x y e Hd.
  - exists [(x, y)], 0. split_and!; try done.
    + intros St visit s. change (seqZ x (Z.of_nat 1)) with [x]. simpl.
      destruct (visit s x y); simpl; [|done]. by destruct (e >? 0).
    + simpl. do 2 f_equal; lia.
    + unfold centred in *. lia.
  - rewrite seqZ_cons by lia.
    replace (Z.pred (Z.of_nat (S (S n)))) with (Z.of_nat (S n)) by lia.
    destruct (Z.gtb_spec e 0) as [He|He].
    + destruct (IH (Z.succ x) (y + step) (e - 2 * dx + 2 * dy))
        as (pts & j & Hrun & Hhd & Hlast & Hj & Hc & Hconn).
      { unfold centred in *. lia. }
      exists ((x, y) :: pts), (j + 1). split_and!.
      * intros St visit s. simpl. destruct (visit s x y); simpl; [|done].
        destruct (Z.gtb_spec e 0); [|lia]. apply Hrun.
      * done.
      * rewrite last_cons, Hlast. do 2 f_equal; lia.
      * lia.
      * lia.
      * unfold centred in *. lia.
      * eapply connected_cons; [|done..]. unfold adjacent. simpl. lia.
    + destruct (IH (Z.succ x) y (e + 2 * dy))
        as (pts & j & Hrun & Hhd & Hlast & Hj & Hc & Hconn).
      { unfold centred in *. lia. }
      exists ((x, y) :: pts), j. split_and!.
      * intros St visit s. simpl. destruct (visit s x y); simpl; [|done].
        destruct (Z.gtb_spec e 0); [lia|]. apply Hrun.
      * done.
      * rewrite last_cons, Hlast. do 2 f_equal; lia.
      * lia.
      * lia.
      * unfold centred in *. lia.
      * eapply connected_cons; [|done..]. unfold adjacent. simpl. lia.
Qed.

End Shallow.

Lemma Paint_Line_Shallow_points x0 y0 x1 y1 :
  x0 ≤ x1 → Z.abs (y1 - y0) ≤ x1 - x0 →
  ∃ pts,
    (∀ St (visit : St → Z → Z → option St) s,
       Paint_Line_Shallow_with visit x0 y0 x1 y1 (x1 - x0) (Z.abs (y1 - y0)) s =
       for_each pts (λ p s, visit s p.1 p.2) s) ∧
    head pts = Some (x0, y0) ∧ last pts = Some (x1, y1) ∧ connected pts.
Proof.
  intros Hx Hslope.
  set (dx := x1 - x0). set (dy := Z.abs (y1 - y0)).
  set (step := if y1 <? y0 then -1 else 1).
  destruct (shallow_loop_points dx dy step) with
    (n := Z.to_nat dx) (x := x0) (y := y0) (e := 2 * dy - dx)
    as (pts & j & Hrun & Hhd & Hlast & Hj & Hc & Hconn).
  { unfold dx, dy. lia. }
  { unfold step. destruct (y1 <? y0); auto. }
  { unfold centred. lia. }
  exists pts. split_and!; try done.
  - intros St visit s. unfold Paint_Line_Shallow_with, range_le.
    fold dx dy step.
    replace (dx + 1) with (Z.of_nat (S (Z.to_nat dx))) by (unfold dx; lia).
    apply Hrun.
  - rewrite Hlast. assert (j = dy) as ->.
    { unfold centred in Hc. destruct (decide (dx = 0)); [lia|]. nia. }
    f_equal. f_equal; [unfold dx; lia|].
    unfold step, dy. destruct (Z.ltb_spec y1 y0); lia.
Qed.

Lemma Paint_Line_Steep_points x0 y0 x1 y1 :
  y0 ≤ y1 → Z.abs (x1 - x0) ≤ y1 - y0 →
  ∃ pts,
    (∀ St (visit : St → Z → Z → option St) s,
       Paint_Line_Steep_with visit x0 y0 x1 y1 (Z.abs (x1 - x0)) (y1 - y0) s =
       for_each pts (λ p s, visit s p.1 p.2) s) ∧
    head pts = Some (x0, y0) ∧ last pts = Some (x1, y1) ∧ connected pts.
Proof.
  intros Hy Hslope.
  destruct (Paint_Line_Shallow_points y0 x0 y1 x1 Hy Hslope)
    as (pts & Hrun & Hhd & Hlast & Hconn).
  exists (prod_swap <$> pts). split_and!.
  - intros St visit s. rewrite for_each_fmap.
    unfold Paint_Line_Steep_with. rewrite steep_loop_shallow.
    apply (Hrun St (λ s a b, visit s b a)).
  - destruct pts; [done|]. by injection Hhd as ->.
  - by rewrite fmap_last, Hlast.
  - by apply connected_swap.
Qed.

(** The cells [Paint_Line] visits: whatever is done at each cell, it is done
    at the cells of a gapless sequence that joins the two end points. *)
Lemma Paint_Line_points x0 y0 x1 y1 :
  ∃ pts,
    (∀ St (visit : St → Z → Z → option St) s,
       Paint_Line_with visit x0 y0 x1 y1 s =
       for_each pts (λ p s, visit s p.1 p.2) s) ∧
    connected pts ∧
    ((head pts = Some (x0, y0) ∧ last pts = Some (x1, y1)) ∨
     (head pts = Some (x1, y1) ∧ last pts = Some (x0, y0))).
Proof.
  unfold Paint_Line_with.
  destruct (Z.leb_spec (Z.abs (y1 - y0)) (Z.abs (x1 - x0))) as [Hs|Hs];
    [destruct (Z.leb_spec x0 x1) as [Hd|Hd]|destruct (Z.leb_spec y0 y1) as [Hd|Hd]].
  - destruct (Paint_Line_Shallow_points x0 y0 x1 y1) as (pts & Hrun & ? & ? & ?);
      [lia..|].
    exists pts. split_and!; [|done|by left]. intros.
    replace (Z.abs (x1 - x0)) with (x1 - x0) by lia. apply Hrun.
  - destruct (Paint_Line_Shallow_points x1 y1 x0 y0) as (pts & Hrun & ? & ? & ?);
      [lia..|].
    exists pts. split_and!; [|done|by right]. intros.
    replace (Z.abs (x1 - x0)) with (x0 - x1) by lia.
    replace (Z.abs (y1 - y0)) with (Z.abs (y0 - y1)) by lia. apply Hrun.
  - destruct (Paint_Line_Steep_points x0 y0 x1 y1) as (pts & Hrun & ? & ? & ?);
      [lia..|].
    exists pts. split_and!; [|done|by left]. intros.
    replace (Z.abs (y1 - y0)) with (y1 - y0) by lia. apply Hrun.
  - destruct (Paint_Line_Steep_points x1 y1 x0 y0) as (pts & Hrun & ? & ? & ?);
      [lia..|].
    exists pts. split_and!; [|done|by right]. intros.
    replace (Z.abs (y1 - y0)) with (y0 - y1) by lia.
    replace (Z.abs (x1 - x0)) with (Z.abs (x0 - x1)) by lia. apply Hrun.
Qed.

(** *** The rasteriser on [int] *)

Lemma int_Some z : INT_MIN ≤ z ≤ INT_MAX → int z = Some z.
Proof.
  intros Hz. unfold int.
  destruct (Z.leb_spec INT_MIN z), (Z.leb_spec z INT_MAX); simpl; done || lia.
Qed.

Lemma int_inv z v : int z = Some v → v = z ∧ INT_MIN ≤ z ≤ INT_MAX.
Proof.
  unfold int.
  destruct (Z.leb_spec INT_MIN z), (Z.leb_spec z INT_MAX); simpl; [|done..].
  by intros [= <-].
Qed.

(** Where the procedures on [int] return, the procedures on the integers
    return the same. *)
Lemma shallow_loop_int_sound {St} (visit : St → Z → Z → option St) xs :
  ∀ y e step dx dy s s',
  shallow_loop_int visit xs y e step dx dy s = Some s' →
  shallow_loop visit xs y e step dx dy s = Some s'.
Proof.
  induction xs as [|x xs IH]; intros y e step dx dy s s'; simpl; [done|].
  destruct (visit s x y) as [s1|]; simpl; [|done].
  destruct (e >? 0).
  - destruct (int (y + step)) as [y'|] eqn:E1; simpl; [|done].
    destruct (int (2 * dx)) as [t|] eqn:E2; simpl; [|done].
    destruct (int (e - t)) as [e'|] eqn:E3; simpl; [|done].
    destruct (int (2 * dy)) as [u|] eqn:E4; simpl; [|done].
    destruct (int (e' + u)) as [e''|] eqn:E5; simpl; [|done].
    destruct (int (x + 1)) as [x'|] eqn:E6; simpl; [|done].
    apply int_inv in E1 as [-> _], E2 as [-> _], E3 as [-> _], E4 as [-> _],
      E5 as [-> _]. apply IH.
  - destruct (int (2 * dy)) as [u|] eqn:E4; simpl; [|done].
    destruct (int (e + u)) as [e''|] eqn:E5; simpl; [|done].
    destruct (int (x + 1)) as [x'|] eqn:E6; simpl; [|done].
    apply int_inv in E4 as [-> _], E5 as [-> _]. apply IH.
Qed.

(** The steep loop on [int] is the shallow loop on [int] with the two axes
    exchanged. *)
Lemma steep_loop_int_shallow {St} (visit : St → Z → Z → option St) ys :
  ∀ x error step dx dy s,
  steep_loop_int visit ys x error step dx dy s =
  shallow_loop_int (λ s a b, visit s b a) ys x error step dy dx s.
Proof.
  induction ys as [|y ys IH]; intros; simpl; [done|].
  destruct (visit s x y); simpl; [|done].
  destruct (error >? 0);
    repeat (match goal with
            | |- context [int ?z] => destruct (int z); simpl; [|done]
            end); apply IH.
Qed.

Lemma Paint_Line_int_sound {St} (visit : St → Z → Z → option St) x0 y0 x1 y1 s s' :
  Paint_Line_int_with visit x0 y0 x1 y1 s = Some s' →
  Paint_Line_with visit x0 y0 x1 y1 s = Some s'.
Proof.
  unfold Paint_Line_int_with, Paint_Line_with.
  destruct (int (x1 - x0)) as [d|] eqn:E1; simpl; [|done].
  destruct (int (Z.abs d)) as [dx|] eqn:E2; simpl; [|done].
  destruct (int (y1 - y0)) as [d'|] eqn:E3; simpl; [|done].
  destruct (int (Z.abs d')) as [dy|] eqn:E4; simpl; [|done].
  apply int_inv in E1 as [-> _], E2 as [-> _], E3 as [-> _], E4 as [-> _].
  assert (∀ (v : St → Z → Z → option St) a b c d dx dy,
    Paint_Line_Shallow_int_with v a b c d dx dy s = Some s' →
    Paint_Line_Shallow_with v a b c d dx dy s = Some s') as Hsh.
  { intros v a b c d dx dy. unfold Paint_Line_Shallow_int_with, Paint_Line_Shallow_with.
    destruct (int (2 * dy)) as [t|] eqn:E1; simpl; [|done].
    destruct (int (t - dx)) as [e|] eqn:E2; simpl; [|done].
    apply int_inv in E1 as [-> _], E2 as [-> _]. apply shallow_loop_int_sound. }
  assert (∀ a b c d dx dy,
    Paint_Line_Steep_int_with visit a b c d dx dy s = Some s' →
    Paint_Line_Steep_with visit a b c d dx dy s = Some s') as Hst.
  { intros a b c d dx dy. unfold Paint_Line_Steep_int_with, Paint_Line_Steep_with.
    rewrite steep_loop_shallow.
    destruct (int (2 * dx)) as [t|] eqn:E1; simpl; [|done].
    destruct (int (t - dy)) as [e|] eqn:E2; simpl; [|done].
    apply int_inv in E1 as [-> _], E2 as [-> _].
    rewrite steep_loop_int_shallow. apply shallow_loop_int_sound. }
  repeat case_match; auto.
Qed.

Section Shallow_int.

Variables dx dy step : Z.
Hypothesis slope : 0 ≤ dy ≤ dx.
Hypothesis unit_step : step = 1 ∨ step = -1.
Hypothesis small : dx < 2 ^ 30.

(** In the loop no operation overflows: the error term stays between
    [2 * dy - 2 * dx] and [2 * dy], and [y] moves by at most 1 for each
    [x]. *)
Lemma shallow_loop_int_eq {St} (visit : St → Z → Z → option St) n :
  ∀ x y e s,
  centred dx (e - 2 * dy + dx) →
  INT_MIN ≤ x → x + Z.of_nat n ≤ INT_MAX →
  INT_MIN + Z.of_nat n ≤ y ≤ INT_MAX - Z.of_nat n →
  shallow_loop_int visit (seqZ x (Z.of_nat n)) y e step dx dy s =
  shallow_loop visit (seqZ x (Z.of_nat n)) y e step dx dy s.
Proof.
  induction n as [|n IH]; intros x y e s Hd Hx Hxn Hy.
  { by rewrite seqZ_nil by lia. }
  rewrite seqZ_cons by lia.
  replace (Z.pred (Z.of_nat (S n))) with (Z.of_nat n) by lia.
  cbn [shallow_loop_int shallow_loop].
  destruct (visit s x y) as [s1|]; simpl; [|done].
  unfold centred, INT_MIN, INT_MAX in *.
  destruct (Z.gtb_spec e 0) as [He|He].
  - rewrite (int_Some (y + step)) by (unfold INT_MIN, INT_MAX; lia). simpl.
    rewrite (int_Some (2 * dx)) by (unfold INT_MIN, INT_MAX; lia). simpl.
    rewrite (int_Some (e - 2 * dx)) by (unfold INT_MIN, INT_MAX; lia). simpl.
    rewrite (int_Some (2 * dy)) by (unfold INT_MIN, INT_MAX; lia). simpl.
    rewrite (int_Some (e - 2 * dx + 2 * dy)) by (unfold INT_MIN, INT_MAX; lia).
    simpl.
    rewrite (int_Some (x + 1)) by (unfold INT_MIN, INT_MAX; lia). simpl.
    apply IH; unfold centred, INT_MIN, INT_MAX; lia.
  - rewrite (int_Some (2 * dy)) by (unfold INT_MIN, INT_MAX; lia). simpl.
    rewrite (int_Some (e + 2 * dy)) by (unfold INT_MIN, INT_MAX; lia). simpl.
    rewrite (int_Some (x + 1)) by (unfold INT_MIN, INT_MAX; lia). simpl.
    apply IH; unfold centred, INT_MIN, INT_MAX; lia.
Qed.

End Shallow_int.

Lemma Paint_Line_Shallow_int_eq {St} (visit : St → Z → Z → option St)
    x0 y0 x1 y1 dx dy s :
  dx = x1 - x0 → 0 ≤ dy ≤ dx → dx < 2 ^ 30 →
  line_coord x0 → line_coord y0 →
  Paint_Line_Shallow_int_with visit x0 y0 x1 y1 dx dy s =
  Paint_Line_Shallow_with visit x0 y0 x1 y1 dx dy s.
Proof.
  unfold line_coord. intros -> Hslope Hsmall Hx Hy.
  unfold Paint_Line_Shallow_int_with, Paint_Line_Shallow_with.
  rewrite (int_Some (2 * dy)) by (unfold INT_MIN, INT_MAX; lia). simpl.
  rewrite (int_Some (2 * dy - (x1 - x0))) by (unfold INT_MIN, INT_MAX; lia).
  simpl. unfold range_le.
  replace (x1 - x0 + 1) with (Z.of_nat (Z.to_nat (x1 - x0 + 1))) by lia.
  apply shallow_loop_int_eq; unfold centred, INT_MIN, INT_MAX; try lia.
  destruct (y1 <? y0); auto.
Qed.

Lemma Paint_Line_Steep_int_eq {St} (visit : St → Z → Z → option St)
    x0 y0 x1 y1 dx dy s :
  dy = y1 - y0 → 0 ≤ dx ≤ dy → dy < 2 ^ 30 →
  line_coord x0 → line_coord y0 →
  Paint_Line_Steep_int_with visit x0 y0 x1 y1 dx dy s =
  Paint_Line_Steep_with visit x0 y0 x1 y1 dx dy s.
Proof.
  intros Hdy Hslope Hsmall Hx Hy.
  pose proof (Paint_Line_Shallow_int_eq (λ s a b, visit s b a)
                y0 x0 y1 x1 dy dx s Hdy Hslope Hsmall Hy Hx) as Heq.
  unfold Paint_Line_Steep_int_with, Paint_Line_Steep_with.
  rewrite steep_loop_shallow.
  unfold Paint_Line_Shallow_int_with, Paint_Line_Shallow_with in Heq.
  rewrite <- Heq.
  destruct (int (2 * dx)); simpl; [|done].
  destruct (int (_ - dy)); simpl; [|done].
  apply steep_loop_int_shallow.
Qed.

(** For coordinates in the range no operation of [Paint_Line] overflows:
    the procedure on [int] does what the procedure on the integers does. *)
Lemma Paint_Line_int_eq {St} (visit : St → Z → Z → option St) x0 y0 x1 y1 s :
  line_range x0 y0 x1 y1 →
  Paint_Line_int_with visit x0 y0 x1 y1 s = Paint_Line_with visit x0 y0 x1 y1 s.
Proof.
  unfold line_range, line_coord. intros (Hx0 & Hy0 & Hx1 & Hy1).
  unfold Paint_Line_int_with, Paint_Line_with.
  rewrite (int_Some (x1 - x0)) by (unfold INT_MIN, INT_MAX; lia). simpl.
  rewrite (int_Some (Z.abs (x1 - x0))) by (unfold INT_MIN, INT_MAX; lia). simpl.
  rewrite (int_Some (y1 - y0)) by (unfold INT_MIN, INT_MAX; lia). simpl.
  rewrite (int_Some (Z.abs (y1 - y0))) by (unfold INT_MIN, INT_MAX; lia). simpl.
  destruct (Z.leb_spec (Z.abs (y1 - y0)) (Z.abs (x1 - x0))) as [Hs|Hs];
    [destruct (Z.leb_spec x0 x1) as [Hd|Hd]|destruct (Z.leb_spec y0 y1) as [Hd|Hd]].
  - apply Paint_Line_Shallow_int_eq; unfold line_coord; lia.
  - apply Paint_Line_Shallow_int_eq; unfold line_coord; lia.
  - apply Paint_Line_Steep_int_eq; unfold line_coord; lia.
  - apply Paint_Line_Steep_int_eq; unfold line_coord; lia.
Qed.

(** C7: for end points whose coordinates lie in the range where no
    operation on [int] overflows, the cells the line rasteriser visits form
    a sequence in which consecutive cells differ by at most 1 in each axis,
    and which starts at one end point and stops at the other. *)
Theorem Paint_Line_int_connected x0 y0 x1 y1 :
  line_range x0 y0 x1 y1 →
  ∃ pts,
    Paint_Line_int_trace x0 y0 x1 y1 = Some pts ∧
    (∀ s, Paint_Line_int x0 y0 x1 y1 s = for_each pts (λ p s, paint s p.1 p.2) s) ∧
    (∀ i p q, pts !! i = Some p → pts !! S i = Some q →
       Z.abs (q.1 - p.1) ≤ 1 ∧ Z.abs (q.2 - p.2) ≤ 1) ∧
    ((head pts = Some (x0, y0) ∧ last pts = Some (x1, y1)) ∨
     (head pts = Some (x1, y1) ∧ last pts = Some (x0, y0))).
Proof.
  intros Hrange.
  destruct (Paint_Line_points x0 y0 x1 y1) as (pts & Hrun & Hconn & Hends).
  exists pts. split_and!; [| |clear Hrun Hends|done].
  - unfold Paint_Line_int_trace. rewrite Paint_Line_int_eq by done.
    rewrite Hrun. apply for_each_record.
  - intros s. unfold Paint_Line_int. rewrite Paint_Line_int_eq by done.
    apply Hrun.
  - induction pts as [|a [|b pts] IH]; intros i p q Hp Hq.
    + done.
    + by destruct i.
    + destruct Hconn as [Hab Hconn]. destruct i as [|i]; simpl in *.
      * by simplify_eq.
      * by eapply IH.
Qed.

(** Outside the range there are end points for which the rasteriser has no
    defined sequence of cells: from [(INT_MIN, 0)] to [(0, 0)] the
    difference [x1 - x0] is [2^31], which is no [int]. *)
Lemma Paint_Line_int_overflow :
  int (0 - INT_MIN) = None ∧
  Paint_Line_int_trace INT_MIN 0 0 0 = None ∧
  ¬ ∃ pts,
      Paint_Line_int_trace INT_MIN 0 0 0 = Some pts ∧
      ((head pts = Some (INT_MIN, 0) ∧ last pts = Some (0, 0)) ∨
       (head pts = Some (0, 0) ∧ last pts = Some (INT_MIN, 0))).
Proof.
  assert (Paint_Line_int_trace INT_MIN 0 0 0 = None) as Hnone by reflexivity.
  split; [reflexivity|]. split; [exact Hnone|].
  intros (pts & Hpts & _). rewrite Hnone in Hpts. discriminate Hpts.
Qed.

(** C8: a line whose two end points coincide, at an [x] below [INT_MAX], is
    shallow, its loop runs once, and it visits that one cell. *)
Theorem Paint_Line_int_point x y :
  INT_MIN ≤ x < INT_MAX →
  Paint_Line_int_trace x y x y = Some [(x, y)] ∧
  (Z.abs (y - y) <=? Z.abs (x - x)) = true ∧
  range_le x x = [x] ∧
  (∀ St (visit : St → Z → Z → option St) s,
     Paint_Line_int_with visit x y x y s =
       Paint_Line_Shallow_int_with visit x y x y 0 0 s ∧
     Paint_Line_int_with visit x y x y s = visit s x y) ∧
  Paint_Line_int_trace 2 2 2 2 = Some [(2, 2)].
Proof.
  intros Hx.
  assert (range_le x x = [x]) as Hloop.
  { unfold range_le. by rewrite Z.sub_diag. }
  assert (∀ St (visit : St → Z → Z → option St) s,
    Paint_Line_int_with visit x y x y s =
      Paint_Line_Shallow_int_with visit x y x y 0 0 s ∧
    Paint_Line_int_with visit x y x y s = visit s x y) as Hrun.
  { intros St visit s. unfold Paint_Line_int_with.
    rewrite !Z.sub_diag. simpl. rewrite Z.leb_refl. split; [done|].
    unfold Paint_Line_Shallow_int_with. rewrite Hloop. simpl.
    destruct (visit s x y); simpl; [|done].
    by rewrite (int_Some (x + 1)) by (unfold INT_MIN, INT_MAX in *; lia). }
  split_and!; [|by rewrite !Z.sub_diag|done|done|done].
  unfold Paint_Line_int_trace. by rewrite (proj2 (Hrun _ _ _)).
Qed.

(** At [x = INT_MAX] the claim fails: the loop visits the cell, and then
    [x++] overflows before the test [x <= x1] can end the loop. *)
Lemma Paint_Line_int_point_overflow :
  int (INT_MAX + 1) = None ∧
  Paint_Line_int_trace INT_MAX 2 INT_MAX 2 = None ∧
  Paint_Line_int_trace INT_MAX 2 INT_MAX 2 ≠ Some [(INT_MAX, 2)].
Proof. split; [reflexivity|]. split; [reflexivity|discriminate]. Qed.

(** ** Painting *)

Lemma in_grid_test x y :
  (x >=? 0) && (y >=? 0) && (x <? SIM_WIDTH) && (y <? SIM_HEIGHT) = true ↔
  in_grid (x, y).
Proof.
  unfold in_grid. simpl. rewrite !andb_true_iff, !Z.geb_le, !Z.ltb_lt. lia.
Qed.

Lemma Try_Paint_Point_outside s x y :
  ¬ in_grid (x, y) → Try_Paint_Point s x y = Some (s, false).
Proof.
  intros Hp. unfold Try_Paint_Point.
  destruct (_ && _) eqn:E; [|done]. by apply in_grid_test in E.
Qed.

Lemma Try_Paint_Point_alive s x y :
  in_grid (x, y) → read (currentState s) x y = Some true →
  Try_Paint_Point s x y = Some (s, true).
Proof.
  intros Hp Hrd. unfold Try_Paint_Point.
  rewrite (proj2 (in_grid_test x y) Hp), Hrd. done.
Qed.

Lemma Try_Paint_Point_dead s x y :
  wf_grid (currentState s) → in_grid (x, y) →
  read (currentState s) x y = Some false →
  0 ≤ renderPointCount s →
  (Z.to_nat (renderPointCount s) < length (renderPoints s))%nat →
  ∃ g', write (currentState s) x y true = Some g' ∧
    Try_Paint_Point s x y =
    Some (mkSim g' (nextState s)
            (<[Z.to_nat (renderPointCount s) := (x, y)]> (renderPoints s))
            (renderPointCount s + 1) true, true).
Proof.
  intros Hc Hp Hrd Hlo Hhi.
  destruct (write_spec (currentState s) x y true) as (g' & Hw & _); [done..|].
  exists g'. split; [done|]. unfold Try_Paint_Point.
  rewrite (proj2 (in_grid_test x y) Hp), Hrd. simpl. rewrite Hw. simpl.
  unfold Add_Rendered_Point. simpl. rewrite index_Some by done. simpl.
  by rewrite decide_True by done.
Qed.

(** Turning on one element of a list without repetition adds it to the
    selected elements. *)
Lemma filter_flip `{EqDecision A} (P Q : A → Prop) `{∀ x, Decision (P x)}
  `{∀ x, Decision (Q x)} (l : list A) a :
  NoDup l → a ∈ l → ¬ P a → Q a → (∀ b, b ≠ a → P b ↔ Q b) →
  filter Q l ≡ₚ a :: filter P l.
Proof.
  intros Hnd Ha HPa HQa HPQ.
  induction l as [|c l IH]; [by apply elem_of_nil in Ha|].
  apply NoDup_cons in Hnd as [Hc Hnd]. rewrite !filter_cons.
  destruct (decide (c = a)) as [->|Hne].
  - rewrite decide_True, decide_False by done. f_equiv.
    erewrite filter_ext_elem; [done|].
    intros b Hb. symmetry. apply HPQ. by intros ->.
  - apply elem_of_cons in Ha as [->|Ha]; [done|].
    specialize (IH Hnd Ha). pose proof (HPQ c Hne).
    destruct (decide (P c)), (decide (Q c)); try tauto.
    rewrite IH. apply Permutation_swap.
Qed.

Lemma live_cells_paint g g' x y :
  in_grid (x, y) → read g x y = Some false → read g' x y = Some true →
  (∀ x' y', (x', y') ≠ (x, y) → read g' x' y' = read g x' y') →
  live_cells g' ≡ₚ (x, y) :: live_cells g.
Proof.
  intros Hp Hd Ha Hother. unfold live_cells.
  apply filter_flip; [apply NoDup_cells|by apply elem_of_cells| |done|].
  - unfold alive. simpl. congruence.
  - intros [x' y'] Hne. unfold alive. simpl. by rewrite Hother.
Qed.

(** Painting keeps the invariant and does not fault. *)
Lemma Try_Paint_Point_Inv s x y :
  Inv s →
  ∃ s', Try_Paint_Point s x y = Some (s', bool_decide (in_grid (x, y))) ∧
    Inv s' ∧ nextState s' = nextState s ∧
    (¬ in_grid (x, y) → s' = s) ∧
    (alive (currentState s) (x, y) → s' = s) ∧
    (in_grid (x, y) →
       read (currentState s') x y = Some true ∧
       ∀ x' y', (x', y') ≠ (x, y) →
         read (currentState s') x' y' = read (currentState s) x' y') ∧
    (in_grid (x, y) → ¬ alive (currentState s) (x, y) →
       render_set s' = render_set s ++ [(x, y)]).
Proof.
  intros (Hwf & Hcnt & Hset).
  destruct (decide (in_grid (x, y))) as [Hp|Hp].
  2:{ exists s. rewrite bool_decide_eq_false_2 by done.
      split_and!; try done. by apply Try_Paint_Point_outside. }
  rewrite bool_decide_eq_true_2 by done.
  destruct Hwf as (Hc & Hn & Hrp).
  destruct (read_is_Some _ x y Hc Hp) as [[] Hrd].
  { exists s. split_and!; try done. by apply Try_Paint_Point_alive. }
  assert (¬ alive (currentState s) (x, y)) as Hdead
    by (unfold alive; simpl; congruence).
  assert (Z.to_nat (renderPointCount s) < length (renderPoints s))%nat as Hhi.
  { rewrite Hcnt, Nat2Z.id, Hrp.
    eapply Nat.lt_le_trans; [|apply length_cells_le].
    apply (length_filter_lt _ _ (x, y)); [by apply elem_of_cells|done]. }
  destruct (Try_Paint_Point_dead s x y) as (g' & Hw & ->); [done..|lia|done|].
  destruct (write_spec (currentState s) x y true)
    as (g'' & Hw' & Hwf' & Hrd' & Hother); [done..|].
  rewrite Hw in Hw'. injection Hw' as <-.
  pose proof (live_cells_paint _ g' x y Hp Hrd Hrd' Hother) as Hlive.
  eexists. split; [done|]. simpl.
  assert (render_set
            (mkSim g' (nextState s)
               (<[Z.to_nat (renderPointCount s) := (x, y)]> (renderPoints s))
               (renderPointCount s + 1) true) = render_set s ++ [(x, y)]) as Hrs.
  { unfold render_set at 1. simpl. apply render_set_add; lia. }
  split_and!; try done.
  - unfold Inv, wf_Sim. simpl. split_and!; try done.
    + by rewrite length_insert.
    + rewrite Hlive. simpl. lia.
    + rewrite Hrs, Hlive, Hset. symmetry. apply Permutation_cons_append.
Qed.

Lemma paint_Inv s x y : Inv s → ∃ s', paint s x y = Some s' ∧ Inv s'.
Proof.
  intros Hs. destruct (Try_Paint_Point_Inv s x y Hs) as (s' & Hp & Hs' & _).
  exists s'. unfold paint. by rewrite Hp.
Qed.

Lemma Paint_Line_Inv s x0 y0 x1 y1 :
  Inv s → ∃ s', Paint_Line x0 y0 x1 y1 s = Some s' ∧ Inv s'.
Proof.
  intros Hs. destruct (Paint_Line_points x0 y0 x1 y1) as (pts & Hrun & _).
  unfold Paint_Line. rewrite Hrun.
  apply for_each_invariant; [|done]. intros. by apply paint_Inv.
Qed.

Lemma Update_Simulation_Inv s :
  wf_Sim s → ∃ s', Update_Simulation s = Some s' ∧ Inv s'.
Proof.
  intros Hs.
  destruct (Update_Simulation_spec s Hs) as (s' & Hs' & Hwf & _ & _ & Hcnt & Hset).
  exists s'. split; [done|]. unfold Inv. by rewrite Hset.
Qed.

Lemma run_op_Inv op s : Inv s → ∃ s', run_op op s = Some s' ∧ Inv s'.
Proof.
  intros Hs. destruct op; simpl.
  - by apply paint_Inv.
  - by apply Paint_Line_Inv.
  - apply Update_Simulation_Inv, Hs.
Qed.

Lemma read_dead_grid x y : read dead_grid x y ≠ Some true.
Proof.
  unfold read, dead_grid. intros Hrd.
  destruct (index x) as [i|]; [simpl in Hrd|done].
  destruct (index y) as [j|]; [simpl in Hrd|done].
  destruct (replicate _ _ !! i) as [col|] eqn:E; [simpl in Hrd|done].
  apply lookup_replicate in E as [-> _].
  by apply lookup_replicate in Hrd as [? _].
Qed.

Lemma wf_dead_grid : wf_grid dead_grid.
Proof.
  unfold wf_grid, dead_grid. rewrite length_replicate. split; [done|].
  apply Forall_replicate. by rewrite length_replicate.
Qed.

Lemma initial_Inv : Inv initial_Sim.
Proof.
  assert (live_cells dead_grid = []) as E.
  { apply elem_of_nil_inv. intros p [Hp _]%list_elem_of_filter.
    by apply read_dead_grid in Hp. }
  unfold Inv, wf_Sim, render_set. simpl. rewrite E, length_replicate.
  split_and!; try done; apply wf_dead_grid.
Qed.

Lemma reachable_Inv s : reachable s → Inv s.
Proof.
  induction 1 as [|s op s' _ IH Hop]; [apply initial_Inv|].
  destruct (run_op_Inv op s IH) as (s'' & E & Hs''). congruence.
Qed.

Lemma render_set_extends s x y s' :
  paint s x y = Some s' → render_set s `prefix_of` render_set s'.
Proof.
  unfold paint, Try_Paint_Point, Add_Rendered_Point, index. intros Hs.
  repeat (simplify_option_eq || case_match); try done.
  unfold render_set at 2. simpl. rewrite render_set_add by lia.
  by apply prefix_app_r.
Qed.

(** C5: painting a cell returns true exactly when the coordinates lie in the
    grid; outside the grid nothing changes; inside it the cell is alive
    afterwards in the current buffer, the other buffer is not touched, and a
    cell that was dead is appended to the render buffer. *)
Theorem Try_Paint_Point_bounds s x y :
  Inv s →
  ∃ s' b, Try_Paint_Point s x y = Some (s', b) ∧
    (b = true ↔ (0 ≤ x < SIM_WIDTH) ∧ (0 ≤ y < SIM_HEIGHT)) ∧
    (b = false → s' = s) ∧
    nextState s' = nextState s ∧
    (b = true →
       read (currentState s') x y = Some true ∧
       (∀ x' y', (x', y') ≠ (x, y) →
          read (currentState s') x' y' = read (currentState s) x' y') ∧
       (read (currentState s) x y = Some true → s' = s) ∧
       (read (currentState s) x y = Some false →
          render_set s' = render_set s ++ [(x, y)])).
Proof.
  intros Hs.
  destruct (Try_Paint_Point_Inv s x y Hs)
    as (s' & Hp & _ & Hn & Hout & Halive & Hin & Hdead).
  exists s', (bool_decide (in_grid (x, y))). split_and!; try done.
  - apply bool_decide_eq_true.
  - intros Hb%bool_decide_eq_false. by apply Hout.
  - intros Hb%bool_decide_eq_true. destruct (Hin Hb) as [Hrd Hother].
    split_and!; try done.
    intros Hd. apply Hdead; [done|]. unfold alive. simpl. congruence.
Qed.

(** C6: after a step the render buffer holds the live cells of the new
    grid, each once, in the order in which the step visits the cells; the
    painting operations only append to it. *)
Theorem Update_Simulation_render_set s :
  wf_Sim s →
  ∃ s', Update_Simulation s = Some s' ∧
    render_set s' = filter (alive (currentState s')) cells ∧
    renderPointCount s' = Z.of_nat (length (render_set s')) ∧
    NoDup (render_set s') ∧
    (∀ p, p ∈ render_set s' ↔ in_grid p ∧ alive (currentState s') p) ∧
    (∀ t op t', op ≠ OpStep → run_op op t = Some t' →
       render_set t `prefix_of` render_set t').
Proof.
  intros Hs.
  destruct (Update_Simulation_spec s Hs) as (s' & Hs' & _ & _ & _ & Hcnt & Hset).
  exists s'. rewrite Hset. fold (live_cells (currentState s')).
  split_and!; try done.
  - apply NoDup_filter, NoDup_cells.
  - intros p. unfold live_cells.
    rewrite list_elem_of_filter, elem_of_cells. tauto.
  - intros t op t' Hop Hrun. destruct op as [x y|x0 y0 x1 y1|]; [| |done].
    + by eapply render_set_extends.
    + simpl in Hrun.
      destruct (Paint_Line_points x0 y0 x1 y1) as (pts & Hpts & _).
      unfold Paint_Line in Hrun. rewrite Hpts in Hrun. clear Hpts.
      revert t Hrun. induction pts as [|[x y] pts IH]; intros t Hrun.
      * by simplify_eq/=.
      * simpl in Hrun. destruct (paint t x y) as [t1|] eqn:E; [|done].
        simpl in Hrun. etrans; [by eapply render_set_extends|by apply IH].
Qed.

(** C10: in every state reached from the start by painting and stepping,
    the render buffer lists the live cells, each once; so its count is the
    number of live cells, it never exceeds the size of the buffer, and no
    operation writes outside the buffer. *)
Theorem reachable_render_buffer s :
  0 < SIM_WIDTH → 0 < SIM_HEIGHT → reachable s →
  renderPointCount s = Z.of_nat (length (live_cells (currentState s))) ∧
  NoDup (render_set s) ∧
  (∀ p, p ∈ render_set s ↔ in_grid p ∧ alive (currentState s) p) ∧
  0 ≤ renderPointCount s ≤ SIM_WIDTH * SIM_HEIGHT ∧
  length (renderPoints s) = Z.to_nat (SIM_WIDTH * SIM_HEIGHT) ∧
  (∀ op, ∃ s', run_op op s = Some s' ∧ reachable s').
Proof.
  intros HW HH Hr. pose proof (reachable_Inv s Hr) as Hs.
  destruct Hs as (Hwf & Hcnt & Hset).
  pose proof (length_filter (alive (currentState s)) cells) as Hle.
  pose proof length_cells_le. fold (live_cells (currentState s)) in Hle.
  split_and!; try done.
  - rewrite Hset. apply NoDup_filter, NoDup_cells.
  - intros p. rewrite Hset. unfold live_cells.
    rewrite list_elem_of_filter, elem_of_cells. tauto.
  - lia.
  - lia.
  - apply Hwf.
  - intros op. destruct (run_op_Inv op s) as (s' & Hop & _); [done|].
    exists s'. split; [done|]. by apply (reachable_op s op).
Qed.

Lemma origin_neighbor p :
  0 < SIM_WIDTH → 0 < SIM_HEIGHT →
  p ∈ [(SIM_WIDTH - 1, 0); (0, SIM_HEIGHT - 1); (SIM_WIDTH - 1, SIM_HEIGHT - 1)] →
  in_grid p ∧ (0, 0) ∈ torus_neighbors p.1 p.2.
Proof.
  intros HW HH Hp. unfold torus_neighbors.
  assert ((SIM_WIDTH - 1 + 1) `mod` SIM_WIDTH = 0) as EW
    by (replace (SIM_WIDTH - 1 + 1) with SIM_WIDTH by lia; apply Z_mod_same_full).
  assert ((SIM_HEIGHT - 1 + 1) `mod` SIM_HEIGHT = 0) as EH
    by (replace (SIM_HEIGHT - 1 + 1) with SIM_HEIGHT by lia; apply Z_mod_same_full).
  assert (0 `mod` SIM_WIDTH = 0) as ZW by apply Zmod_0_l.
  assert (0 `mod` SIM_HEIGHT = 0) as ZH by apply Zmod_0_l.
  rewrite !elem_of_cons in Hp. destruct Hp as [->|[->|[->|[]%elem_of_nil]]];
    (split; [split; simpl; lia|]); apply list_elem_of_fmap;
    [exists (1, 0)|exists (0, 1)|exists (1, 1)];
    (split; [cbn [fst snd]; by rewrite ?Z.add_0_l, ?EW, ?EH, ?ZW, ?ZH
            |unfold offsets; repeat constructor]).
Qed.

(** C2: the neighbours a step counts for a cell are the 8 cells at
    [x±1], [y±1] with each axis wrapped around on its own; so a live cell at
    the origin is counted for the cells in the three other corners. *)
Theorem count_neighbors_torus g :
  wf_grid g → 0 < SIM_WIDTH → 0 < SIM_HEIGHT →
  (∀ x y, in_grid (x, y) →
     (∀ d, -1 ≤ d ≤ 1 →
        wrap SIM_WIDTH (x + d) = (x + d) `mod` SIM_WIDTH ∧
        wrap SIM_HEIGHT (y + d) = (y + d) `mod` SIM_HEIGHT) ∧
     count_neighbors_exhaustive g x y = Some (live_neighbors g x y) ∧
     ∃ n, count_neighbors g x y = Some n ∧
          (n = live_neighbors g x y ∨ 3 < n ∧ 3 < live_neighbors g x y)) ∧
  (alive g (0, 0) →
     ∀ p, p ∈ [(SIM_WIDTH - 1, 0); (0, SIM_HEIGHT - 1);
               (SIM_WIDTH - 1, SIM_HEIGHT - 1)] →
       (0, 0) ∈ torus_neighbors p.1 p.2 ∧
       ∃ n, count_neighbors g p.1 p.2 = Some n ∧ 1 ≤ n).
Proof.
  intros Hg HW HH. split.
  - intros x y Hp. split_and!.
    + intros d Hd. destruct Hp as [Hx Hy]. simpl in *.
      split; by apply wrap_mod.
    + by apply count_neighbors_exhaustive_spec.
    + by apply count_neighbors_spec.
  - intros Ha [x y] Hp. destruct (origin_neighbor _ HW HH Hp) as [Hin Hnb].
    split; [done|]. simpl in *.
    destruct (count_neighbors_spec g x y Hg Hin) as (n & Hn & Hagree).
    exists n. split; [done|].
    assert (1 ≤ live_neighbors g x y); [|unfold agrees in Hagree; lia].
    unfold live_neighbors.
    destruct (filter (alive g) (torus_neighbors x y)) as [|q l] eqn:E;
      [|simpl; lia].
    assert ((0, 0) ∈ filter (alive g) (torus_neighbors x y)) as Hel
      by (by apply list_elem_of_filter).
    rewrite E in Hel. by apply elem_of_nil in Hel.
Qed.

(** ** Floats *)

Lemma iter_pos_invariant {A} (P : A → Prop) (f : A → A) :
  (∀ x, P x → P (f x)) → ∀ p x, P x → P (SpecFloat.iter_pos f p x).
Proof. intros Hf. induction p; intros x Hx; simpl; auto. Qed.

Lemma shr_1_nonneg mrs : 0 ≤ shr_m mrs → 0 ≤ shr_m (shr_1 mrs).
Proof. destruct mrs as [[|[]|[]] r s]; simpl; lia. Qed.

Lemma shr_fexp_nonneg m e l :
  0 ≤ m → 0 ≤ shr_m (shr_fexp float_prec float_emax m e l).1.
Proof.
  intros Hm. unfold shr_fexp, shr.
  assert (0 ≤ shr_m (shr_record_of_loc m l)) as H0 by (by destruct l as [|[]]).
  destruct (_ - e); simpl; [done| |done].
  apply (iter_pos_invariant (λ mrs, 0 ≤ shr_m mrs)); [apply shr_1_nonneg|done].
Qed.

Lemma round_nearest_even_nonneg m l : 0 ≤ m → 0 ≤ round_nearest_even m l.
Proof. intros. destruct l as [|[]]; simpl; [done| |done|]; try case_match; lia. Qed.

Lemma binary_round_aux_not_nan sx mx ex lx :
  0 ≤ mx → binary_round_aux float_prec float_emax sx mx ex lx ≠ S754_nan.
Proof.
  intros Hm. unfold binary_round_aux.
  pose proof (shr_fexp_nonneg mx ex lx Hm) as H1.
  destruct (shr_fexp _ _ mx ex lx) as [mrs' e']. simpl in H1.
  pose proof (shr_fexp_nonneg _ e' loc_Exact
                (round_nearest_even_nonneg _ (loc_of_shr_record mrs') H1)) as H2.
  destruct (shr_fexp _ _ _ e' loc_Exact) as [mrs'' e'']. simpl in H2.
  destruct (shr_m mrs''); [done| |lia]. by case_match.
Qed.

Lemma binary_normalize_not_nan m e :
  binary_normalize float_prec float_emax m e false ≠ S754_nan.
Proof.
  destruct m; simpl; [done|..]; unfold binary_round;
    destruct (shl_align _ _ _); by apply binary_round_aux_not_nan.
Qed.

(** A number plus anything but NaN is not NaN. *)
Lemma float_add_not_nan a d :
  is_number a → d ≠ S754_nan → float_add a d ≠ S754_nan.
Proof.
  unfold float_add, SFadd.
  destruct a as [[]|[]| |sa ma ea], d as [[]|[]| |sd md ed];
    try done; intros _ _; apply binary_normalize_not_nan.
Qed.

Lemma float_eq_zero r :
  float_eq r (float_of_Z 0) = true ↔ ∃ s, r = S754_zero s.
Proof.
  split; [|by intros [s ->]].
  destruct r as [s|[]| |[] m e]; try done. eauto.
Qed.

(** ** Pacing *)

Lemma float_of_Z_0 : float_of_Z 0 = S754_zero false.
Proof. reflexivity. Qed.

Lemma float_of_Z_MAX :
  float_of_Z MAX_STEPS_PER_SECOND = S754_finite false 10485760 (-19).
Proof. reflexivity. Qed.

(** What the two clamps of the wheel event leave: a rate that is not
    negative, and a number if the scroll amount is one. *)
Lemma wheel_rate a delta :
  let a' := (SDL_AppEvent a (SDL_EVENT_MOUSE_WHEEL delta)).1 in
  float_lt (steps_per_second a') (float_of_Z 0) = false ∧
  (is_number (steps_per_second a) → delta ≠ S754_nan →
   is_number (steps_per_second a')).
Proof.
  unfold SDL_AppEvent. cbn [fst steps_per_second set_steps_per_second].
  rewrite float_of_Z_0, float_of_Z_MAX.
  pose proof (float_add_not_nan (steps_per_second a) delta) as Hnan.
  destruct (float_add (steps_per_second a) delta) as [s|[]| |[] m e];
    simpl; repeat case_match;
    (split; [done|intros; try done; by apply Hnan]).
Qed.

Lemma event_rate a event :
  float_lt (steps_per_second a) (float_of_Z 0) = false →
  float_lt (steps_per_second (SDL_AppEvent a event).1) (float_of_Z 0) = false.
Proof.
  intros Ha. destruct event; try done; try (simpl; by case_match).
  apply wheel_rate.
Qed.

Lemma event_number a event :
  input_ok (InEvent event) → is_number (steps_per_second a) →
  is_number (steps_per_second (SDL_AppEvent a event).1).
Proof.
  intros Hok Ha. destruct event; try done; try (simpl; by case_match).
  by apply wheel_rate.
Qed.

Lemma PaintCells_rate a a' :
  PaintCells a = Some a' → steps_per_second a' = steps_per_second a.
Proof.
  unfold PaintCells. intros Hp.
  repeat (simplify_option_eq || case_match); done.
Qed.

Lemma SDL_AppIterate_with_rate update now a a' :
  SDL_AppIterate_with update now a = Some a' →
  steps_per_second a' = steps_per_second a.
Proof.
  unfold SDL_AppIterate_with. intros Hi.
  destruct (PaintCells a) as [a1|] eqn:E; [simpl in Hi|done].
  apply PaintCells_rate in E. rewrite <- E.
  repeat (simplify_option_eq || case_match); done.
Qed.

(** With the gate [steps_per_second > 0] closed, a frame tick does the same
    whatever the procedure that advances the simulation is, even one that
    cannot be called: the tick does not call it. *)
Lemma paused_tick update now a :
  float_lt (float_of_Z 0) (steps_per_second a) = false →
  SDL_AppIterate_with update now a = SDL_AppIterate_with never_called now a.
Proof.
  intros Hgate. unfold SDL_AppIterate_with.
  destruct (PaintCells a) as [a1|] eqn:E; [|done].
  apply PaintCells_rate in E. cbn [mbind option_bind]. by rewrite E, Hgate.
Qed.

Lemma paused_frames update nows : ∀ a,
  float_lt (float_of_Z 0) (steps_per_second a) = false →
  frames update nows a = frames never_called nows a.
Proof.
  unfold frames. induction nows as [|now nows IH]; intros a Hgate; [done|].
  simpl. rewrite (paused_tick update) by done.
  destruct (SDL_AppIterate_with never_called now a) as [a'|] eqn:E; [simpl|done].
  apply IH. by rewrite (SDL_AppIterate_with_rate _ _ _ _ E).
Qed.

Lemma app_reachable_rate a :
  app_reachable a →
  float_lt (steps_per_second a) (float_of_Z 0) = false ∧
  is_number (steps_per_second a).
Proof.
  induction 1 as [t0|a i a' _ [IH1 IH2] Hok Hrun]; [done|].
  destruct i as [event|now]; simpl in Hrun.
  - injection Hrun as <-. split; [by apply event_rate|by apply event_number].
  - apply SDL_AppIterate_with_rate in Hrun. by rewrite Hrun.
Qed.

(** C9: while the rate is 0 no frame tick advances the simulation, however
    many ticks there are and whatever the clock says; and the clamp of the
    wheel event keeps the rate from being negative, so that the simulation
    is paused exactly when the rate is 0. *)
Theorem paused_never_steps a update nows :
  float_eq (steps_per_second a) (float_of_Z 0) = true →
  frames update nows a = frames never_called nows a ∧
  (∀ now, SDL_AppIterate_with update now a =
          SDL_AppIterate_with never_called now a) ∧
  (∀ b, app_reachable b →
     float_lt (steps_per_second b) (float_of_Z 0) = false ∧
     (float_lt (float_of_Z 0) (steps_per_second b) = false ↔
      float_eq (steps_per_second b) (float_of_Z 0) = true)).
Proof.
  intros [s Hs]%float_eq_zero.
  assert (float_lt (float_of_Z 0) (steps_per_second a) = false) as Hgate
    by (by rewrite Hs).
  split_and!.
  - by apply paused_frames.
  - intros now. by apply paused_tick.
  - intros b [Hneg Hnum]%app_reachable_rate. split; [done|].
    destruct (steps_per_second b) as [?|?| |[] m e]; done.
Qed.

(** ** The whole program *)

Lemma rendered_Inv s : Inv s → Inv (rendered s).
Proof. done. Qed.

Lemma PaintCells_Inv a a' :
  Inv (sim a) → PaintCells a = Some a' → Inv (sim a').
Proof.
  intros Ha. unfold PaintCells. destruct (mouseDown a); [|simpl; intros [= <-]; exact Ha].
  destruct (Z_of_float (float_div (mouseX a) _)) as [cx|];
    cbn [mbind option_bind]; [|done].
  destruct (Z_of_float (float_div (mouseY a) _)) as [cy|];
    cbn [mbind option_bind]; [|done].
  destruct (mouseWasDown a).
  - destruct (Paint_Line_Inv (sim a) (lastMouseCellX a) (lastMouseCellY a) cx cy)
      as (s & -> & Hs); [done|]. intros [= <-]. exact Hs.
  - destruct (paint_Inv (sim a) cx cy) as (s & -> & Hs); [done|].
    intros [= <-]. exact Hs.
Qed.

Lemma SDL_AppIterate_Inv now a a' :
  Inv (sim a) → SDL_AppIterate now a = Some a' → Inv (sim a').
Proof.
  intros Ha. unfold SDL_AppIterate, SDL_AppIterate_with.
  destruct (PaintCells a) as [a1|] eqn:E; [|done].
  apply PaintCells_Inv in E; [|done]. cbn [mbind option_bind].
  assert (∀ a2, Inv (sim a2) →
    Some (if needs_new_render (sim a2)
          then set_sim a2 (rendered (sim a2)) else a2) = Some a' →
    Inv (sim a')) as Hdraw.
  { intros a2 H2 [= <-]. destruct (needs_new_render (sim a2)); exact H2. }
  destruct (float_lt _ _); [|by apply Hdraw].
  destruct (float_le _ _); [|by apply Hdraw].
  destruct (Update_Simulation_Inv (sim a1)) as (s & -> & Hs); [apply E|].
  apply Hdraw. exact Hs.
Qed.

(** In the running program the render buffer lists the live cells, each
    once, after every event and every frame tick. *)
Lemma app_reachable_Inv a : app_reachable a → Inv (sim a).
Proof.
  induction 1 as [t0|a i a' _ IH _ Hrun]; [apply initial_Inv|].
  destruct i as [event|now]; simpl in Hrun.
  - injection Hrun as <-. destruct event; simpl; try case_match; exact IH.
  - by eapply SDL_AppIterate_Inv.
Qed.

(** * Further properties *)

(** ** The rasteriser and the ideal line *)

(** The recorder that stores [f x y] for the visited cell [(x, y)]. *)
Definition record_with (f : Z → Z → Z * Z) (tr : list (Z * Z)) (x y : Z)
  : option (list (Z * Z)) :=
  Some (tr ++ [f x y]).

(** Twice the area of the triangle of the two end points and [(x, y)]: the
    distance from [(x, y)] to the line through the end points, times their
    distance. *)
Definition cross (x0 y0 x1 y1 x y : Z) : Z :=
  (x1 - x0) * (y - y0) - (y1 - y0) * (x - x0).

(** A cell in the bounding box of the two end points and, along the minor
    axis, within half a cell of the line through them. *)
Definition near_line (x0 y0 x1 y1 : Z) (p : Z * Z) : Prop :=
  (Z.min x0 x1 ≤ p.1 ≤ Z.max x0 x1) ∧ (Z.min y0 y1 ≤ p.2 ≤ Z.max y0 y1) ∧
  2 * Z.abs (cross x0 y0 x1 y1 p.1 p.2) ≤
    Z.max (Z.abs (x1 - x0)) (Z.abs (y1 - y0)).

Lemma near_line_swap_ends x0 y0 x1 y1 p :
  near_line x0 y0 x1 y1 p → near_line x1 y1 x0 y0 p.
Proof.
  unfold near_line, cross. intros (Hx & Hy & Hc).
  replace ((x0 - x1) * (p.2 - y1) - (y0 - y1) * (p.1 - x1))
    with (- ((x1 - x0) * (p.2 - y0) - (y1 - y0) * (p.1 - x0))) by ring.
  split_and!; lia.
Qed.

Lemma near_line_transpose x0 y0 x1 y1 x y :
  near_line x0 y0 x1 y1 (x, y) → near_line y0 x0 y1 x1 (y, x).
Proof.
  unfold near_line, cross. simpl. intros (Hx & Hy & Hc).
  replace ((y1 - y0) * (x - x0) - (x1 - x0) * (y - y0))
    with (- ((x1 - x0) * (y - y0) - (y1 - y0) * (x - x0))) by ring.
  split_and!; lia.
Qed.

Section Shallow_on_line.

Variables dx dy step : Z.
Variable f : Z → Z → Z * Z.
Hypothesis slope : 0 ≤ dy ≤ dx.

Lemma shallow_loop_on_line n : ∀ x y e tr,
  centred dx (e - 2 * dy + dx) →
  ∃ pts,
    shallow_loop (record_with f) (seqZ x (Z.of_nat n)) y e step dx dy tr =
      Some (tr ++ pts) ∧
    length pts = n ∧
    Forall (λ p, ∃ k j, p = f (x + k) (y + step * j) ∧
                  0 ≤ k < Z.of_nat n ∧ 0 ≤ j ≤ k ∧
                  centred dx (e - 2 * dy + dx + 2 * dy * k - 2 * dx * j)) pts.
Proof.
  induction n as [|n IH]; intros x y e tr Hd.
  { exists []. rewrite seqZ_nil by lia. by rewrite app_nil_r. }
  rewrite seqZ_cons by lia.
  replace (Z.pred (Z.of_nat (S n))) with (Z.of_nat n) by lia.
  cbn [shallow_loop record_with mbind option_bind].
  assert (∃ y' e' i, (if e >? 0 then (y + step, e - 2 * dx) else (y, e)) = (y', e') ∧
            y' = y + step * i ∧ 0 ≤ i ≤ 1 ∧
            e' + 2 * dy = e + 2 * dy - 2 * dx * i ∧
            centred dx (e' + 2 * dy - 2 * dy + dx)) as (y' & e' & i & -> & Hy & Hi & He & Hd').
  { unfold centred in *. destruct (Z.gtb_spec e 0).
    - exists (y + step), (e - 2 * dx), 1. split_and!; try done; lia.
    - exists y, e, 0. split_and!; try done; lia. }
  destruct (IH (Z.succ x) y' (e' + 2 * dy) (tr ++ [f x y]) Hd')
    as (pts & -> & Hlen & Hpts).
  exists (f x y :: pts). split_and!.
  - by rewrite <- app_assoc.
  - simpl. by rewrite Hlen.
  - apply Forall_cons. split.
    + exists 0, 0. split_and!; try lia.
      * do 2 f_equal; lia.
      * unfold centred in *. lia.
    + eapply Forall_impl; [exact Hpts|]. simpl.
      intros p (k & j & -> & Hk & Hj & Hc).
      exists (k + 1), (j + i). split_and!; try lia.
      * f_equal; lia.
      * unfold centred in *. nia.
Qed.

End Shallow_on_line.

Lemma Paint_Line_Shallow_on_line f x0 y0 x1 y1 tr :
  x0 ≤ x1 → Z.abs (y1 - y0) ≤ x1 - x0 →
  ∃ pts,
    Paint_Line_Shallow_with (record_with f) x0 y0 x1 y1
      (x1 - x0) (Z.abs (y1 - y0)) tr = Some (tr ++ pts) ∧
    Z.of_nat (length pts) = x1 - x0 + 1 ∧
    Forall (λ p, ∃ x y, p = f x y ∧ near_line x0 y0 x1 y1 (x, y)) pts.
Proof.
  intros Hx Hslope.
  set (dx := x1 - x0). set (dy := Z.abs (y1 - y0)).
  set (step := if y1 <? y0 then -1 else 1).
  destruct (shallow_loop_on_line dx dy step f) with
    (n := Z.to_nat (dx + 1)) (x := x0) (y := y0) (e := 2 * dy - dx) (tr := tr)
    as (pts & Hrun & Hlen & Hpts).
  { unfold dx, dy. lia. }
  { unfold centred. lia. }
  exists pts. split_and!.
  - unfold Paint_Line_Shallow_with, range_le. fold dx dy step.
    replace (dx + 1) with (Z.of_nat (Z.to_nat (dx + 1))) at 1 by (unfold dx; lia).
    exact Hrun.
  - rewrite Hlen. unfold dx. lia.
  - eapply Forall_impl; [exact Hpts|]. simpl.
    intros p (k & j & -> & Hk & Hj & Hc). eexists _, _. split; [done|].
    assert (y1 - y0 = step * dy ∧ (step = 1 ∨ step = -1)) as [Hy Hstep]
      by (unfold step, dy; destruct (Z.ltb_spec y1 y0); lia).
    assert (j ≤ dy) as Hjd.
    { unfold centred in Hc. destruct (decide (dx = 0)); [lia|]. nia. }
    unfold near_line, cross, centred in *. simpl.
    replace ((x1 - x0) * (y0 + step * j - y0) - (y1 - y0) * (x0 + k - x0))
      with (step * (dx * j - dy * k)) by (rewrite Hy; unfold dx; ring).
    fold dx dy. split_and!; destruct Hstep as [Hs|Hs]; rewrite ?Hs; lia.
Qed.

Lemma Paint_Line_Steep_on_line x0 y0 x1 y1 tr :
  y0 ≤ y1 → Z.abs (x1 - x0) ≤ y1 - y0 →
  ∃ pts,
    Paint_Line_Steep_with record x0 y0 x1 y1
      (Z.abs (x1 - x0)) (y1 - y0) tr = Some (tr ++ pts) ∧
    Z.of_nat (length pts) = y1 - y0 + 1 ∧
    Forall (near_line x0 y0 x1 y1) pts.
Proof.
  intros Hy Hslope.
  destruct (Paint_Line_Shallow_on_line (λ a b, (b, a)) y0 x0 y1 x1 tr Hy Hslope)
    as (pts & Hrun & Hlen & Hpts).
  exists pts. split_and!; [|done|].
  - unfold Paint_Line_Steep_with. rewrite steep_loop_shallow. exact Hrun.
  - eapply Forall_impl; [exact Hpts|]. simpl.
    intros p (a & b & -> & Hp). by apply near_line_transpose.
Qed.

(** On the integers, the cells a line visits lie in the bounding box of its
    end points and near the line through them. *)
Lemma Paint_Line_near_line x0 y0 x1 y1 :
  ∃ pts,
    Paint_Line_trace x0 y0 x1 y1 = Some pts ∧
    Z.of_nat (length pts) = Z.max (Z.abs (x1 - x0)) (Z.abs (y1 - y0)) + 1 ∧
    ∀ x y, (x, y) ∈ pts →
      (Z.min x0 x1 ≤ x ≤ Z.max x0 x1) ∧ (Z.min y0 y1 ≤ y ≤ Z.max y0 y1) ∧
      2 * Z.abs ((x1 - x0) * (y - y0) - (y1 - y0) * (x - x0)) ≤
        Z.max (Z.abs (x1 - x0)) (Z.abs (y1 - y0)).
Proof.
  assert (∀ pts, Forall (near_line x0 y0 x1 y1) pts →
    ∀ x y, (x, y) ∈ pts →
      (Z.min x0 x1 ≤ x ≤ Z.max x0 x1) ∧ (Z.min y0 y1 ≤ y ≤ Z.max y0 y1) ∧
      2 * Z.abs ((x1 - x0) * (y - y0) - (y1 - y0) * (x - x0)) ≤
        Z.max (Z.abs (x1 - x0)) (Z.abs (y1 - y0))) as Hnear.
  { intros pts Hpts x y Hp. rewrite Forall_forall in Hpts.
    apply (Hpts (x, y) Hp). }
  unfold Paint_Line_trace, Paint_Line_with.
  destruct (Z.leb_spec (Z.abs (y1 - y0)) (Z.abs (x1 - x0))) as [Hs|Hs];
    [destruct (Z.leb_spec x0 x1) as [Hd|Hd]|destruct (Z.leb_spec y0 y1) as [Hd|Hd]].
  - destruct (Paint_Line_Shallow_on_line pair x0 y0 x1 y1 [])
      as (pts & Hrun & Hlen & Hpts); [lia..|].
    exists pts. split_and!; [|lia|].
    + replace (Z.abs (x1 - x0)) with (x1 - x0) by lia. exact Hrun.
    + apply Hnear. eapply Forall_impl; [exact Hpts|].
      simpl. by intros p (x & y & -> & Hp).
  - destruct (Paint_Line_Shallow_on_line pair x1 y1 x0 y0 [])
      as (pts & Hrun & Hlen & Hpts); [lia..|].
    exists pts. split_and!; [|lia|].
    + replace (Z.abs (x1 - x0)) with (x0 - x1) by lia.
      replace (Z.abs (y1 - y0)) with (Z.abs (y0 - y1)) by lia. exact Hrun.
    + apply Hnear. eapply Forall_impl; [exact Hpts|].
      simpl. intros p (x & y & -> & Hp). by apply near_line_swap_ends.
  - destruct (Paint_Line_Steep_on_line x0 y0 x1 y1 [])
      as (pts & Hrun & Hlen & Hpts); [lia..|].
    exists pts. split_and!; [|lia|by apply Hnear].
    replace (Z.abs (y1 - y0)) with (y1 - y0) by lia. exact Hrun.
  - destruct (Paint_Line_Steep_on_line x1 y1 x0 y0 [])
      as (pts & Hrun & Hlen & Hpts); [lia..|].
    exists pts. split_and!; [|lia|].
    + replace (Z.abs (y1 - y0)) with (y0 - y1) by lia.
      replace (Z.abs (x1 - x0)) with (Z.abs (x0 - x1)) by lia. exact Hrun.
    + apply Hnear. eapply Forall_impl; [exact Hpts|].
      intros p Hp. by apply near_line_swap_ends.
Qed.

Lemma Paint_Line_symmetric {St} (visit : St → Z → Z → option St) x0 y0 x1 y1 s :
  Paint_Line_with visit x0 y0 x1 y1 s = Paint_Line_with visit x1 y1 x0 y0 s.
Proof.
  unfold Paint_Line_with.
  replace (Z.abs (x0 - x1)) with (Z.abs (x1 - x0)) by lia.
  replace (Z.abs (y0 - y1)) with (Z.abs (y1 - y0)) by lia.
  destruct (Z.leb_spec (Z.abs (y1 - y0)) (Z.abs (x1 - x0))) as [Hs|Hs].
  - destruct (Z.leb_spec x0 x1), (Z.leb_spec x1 x0); try done; [|lia].
    assert (x0 = x1) as -> by lia. assert (y0 = y1) as -> by lia. done.
  - destruct (Z.leb_spec y0 y1), (Z.leb_spec y1 y0); try done; lia.
Qed.

(** X1: for end points in the range where no operation on [int] overflows,
    the cells a line visits lie in the bounding box of its end points and
    within half a cell of the line through them, measured along the minor
    axis; and there is one cell for each step along the major axis. *)
Theorem Paint_Line_int_near_line x0 y0 x1 y1 :
  line_range x0 y0 x1 y1 →
  ∃ pts,
    Paint_Line_int_trace x0 y0 x1 y1 = Some pts ∧
    Z.of_nat (length pts) = Z.max (Z.abs (x1 - x0)) (Z.abs (y1 - y0)) + 1 ∧
    ∀ x y, (x, y) ∈ pts →
      (Z.min x0 x1 ≤ x ≤ Z.max x0 x1) ∧ (Z.min y0 y1 ≤ y ≤ Z.max y0 y1) ∧
      2 * Z.abs ((x1 - x0) * (y - y0) - (y1 - y0) * (x - x0)) ≤
        Z.max (Z.abs (x1 - x0)) (Z.abs (y1 - y0)).
Proof.
  intros Hrange. unfold Paint_Line_int_trace.
  rewrite Paint_Line_int_eq by done. apply Paint_Line_near_line.
Qed.

(** X2: for end points in the range where no operation on [int] overflows,
    a line does not depend on the order of its end points: whatever is done
    at the cells, it is done at the same cells in the same order. *)
Theorem Paint_Line_int_symmetric {St} (visit : St → Z → Z → option St)
    x0 y0 x1 y1 s :
  line_range x0 y0 x1 y1 →
  Paint_Line_int_with visit x0 y0 x1 y1 s =
  Paint_Line_int_with visit x1 y1 x0 y0 s.
Proof.
  intros Hrange.
  rewrite !Paint_Line_int_eq; [apply Paint_Line_symmetric| |done].
  destruct Hrange as (? & ? & ? & ?). by split_and!.
Qed.

(** ** What a stroke paints *)

Lemma paint_each_Inv pts : ∀ s,
  Inv s →
  ∃ s', for_each pts (λ p s, paint s p.1 p.2) s = Some s' ∧ Inv s' ∧
    nextState s' = nextState s ∧
    ∀ p, alive (currentState s') p ↔
         alive (currentState s) p ∨ (p ∈ pts ∧ in_grid p).
Proof.
  induction pts as [|[x y] pts IH]; intros s Hs.
  { exists s. split_and!; try done. intros p. split; [by left|].
    by intros [?|[?%elem_of_nil _]]. }
  destruct (Try_Paint_Point_Inv s x y Hs)
    as (s1 & Hp & Hs1 & Hn1 & Hout & Halive & Hin & _).
  destruct (IH s1 Hs1) as (s' & Hrun & Hs' & Hn' & Hiff).
  exists s'. split_and!; try done.
  - cbn [for_each fst snd].
    assert (paint s x y = Some s1) as -> by (unfold paint; by rewrite Hp).
    exact Hrun.
  - congruence.
  - assert (∀ p, alive (currentState s1) p ↔
                 alive (currentState s) p ∨ (p = (x, y) ∧ in_grid p)) as H1.
    { intros [x' y']. destruct (decide (in_grid (x, y))) as [Hg|Hg].
      - destruct (Hin Hg) as [Hrd Hother]. unfold alive. simpl.
        destruct (decide ((x', y') = (x, y))) as [[= -> ->]|Hne].
        + split; [by right|done].
        + rewrite (Hother _ _ Hne). split; [by left|].
          by intros [?|[? _]].
      - rewrite (Hout Hg). split; [by left|].
        intros [?|[[= -> ->] ?]]; done. }
    intros p. rewrite Hiff, H1, elem_of_cons. tauto.
Qed.

(** X3: a stroke between end points in the range where no operation on
    [int] overflows, on a state of the running program, returns, makes alive
    the cells of its line that lie in the grid, and changes no other cell
    and nothing of the other buffer: cells outside the grid are skipped, not
    wrapped around. *)
Theorem Paint_Line_int_paints x0 y0 x1 y1 s :
  line_range x0 y0 x1 y1 → Inv s →
  ∃ s' pts,
    Paint_Line_int x0 y0 x1 y1 s = Some s' ∧
    Paint_Line_int_trace x0 y0 x1 y1 = Some pts ∧
    nextState s' = nextState s ∧
    ∀ x y, read (currentState s') x y = Some true ↔
           read (currentState s) x y = Some true ∨
           ((x, y) ∈ pts ∧ (0 ≤ x < SIM_WIDTH) ∧ (0 ≤ y < SIM_HEIGHT)).
Proof.
  intros Hrange Hs.
  destruct (Paint_Line_points x0 y0 x1 y1) as (pts & Hrun & _).
  destruct (paint_each_Inv pts s Hs) as (s' & Hp & _ & Hn & Hiff).
  exists s', pts. split_and!; try done.
  - unfold Paint_Line_int. rewrite Paint_Line_int_eq by done. by rewrite Hrun.
  - unfold Paint_Line_int_trace. rewrite Paint_Line_int_eq by done.
    rewrite Hrun. apply for_each_record.
  - intros x y. apply (Hiff (x, y)).
Qed.

Lemma paint_each_alive pts : ∀ s,
  wf_grid (currentState s) →
  (∀ p, p ∈ pts → in_grid p → alive (currentState s) p) →
  for_each pts (λ p s, paint s p.1 p.2) s = Some s.
Proof.
  induction pts as [|[x y] pts IH]; intros s Hwf Halive; [done|].
  cbn [for_each fst snd].
  assert (paint s x y = Some s) as ->.
  { unfold paint. destruct (decide (in_grid (x, y))) as [Hg|Hg].
    - rewrite Try_Paint_Point_alive; [done..|]. apply (Halive (x, y)); [left|done].
    - by rewrite Try_Paint_Point_outside. }
  simpl. apply IH; [done|]. intros p Hp. apply Halive. by right.
Qed.

(** X4: painting is idempotent: painting a cell or a stroke again, right
    after it was painted, changes nothing, and in particular appends
    nothing to the render buffer. *)
Theorem paint_again s :
  Inv s →
  (∀ x y s', paint s x y = Some s' → paint s' x y = Some s') ∧
  (∀ x0 y0 x1 y1 s',
     Paint_Line x0 y0 x1 y1 s = Some s' → Paint_Line x0 y0 x1 y1 s' = Some s').
Proof.
  intros Hs. split.
  - intros x y s' Hp.
    destruct (paint_each_Inv [(x, y)] s Hs) as (s1 & Hrun & Hs1 & _ & Hiff).
    cbn [for_each fst snd] in Hrun. rewrite Hp in Hrun. simpl in Hrun.
    injection Hrun as <-.
    pose proof (paint_each_alive [(x, y)] s' (proj1 (proj1 Hs1))) as Hagain.
    cbn [for_each fst snd] in Hagain.
    destruct (paint s' x y) as [s2|] eqn:E; simpl in Hagain.
    + rewrite <- Hagain; [done|]. intros p Hin Hg. apply Hiff. by right.
    + discriminate Hagain. intros p Hin Hg. apply Hiff. by right.
  - intros x0 y0 x1 y1 s' Hp.
    destruct (Paint_Line_points x0 y0 x1 y1) as (pts & Hrun & _).
    unfold Paint_Line in *. rewrite Hrun in *.
    destruct (paint_each_Inv pts s Hs) as (s1 & Hrun1 & Hs1 & _ & Hiff).
    rewrite Hp in Hrun1. injection Hrun1 as <-.
    apply paint_each_alive; [apply Hs1|].
    intros p Hin Hg. apply Hiff. by right.
Qed.

(** ** More on the step *)

Lemma next_cell_dead cur p :
  wf_grid cur → in_grid p → live_cells cur = [] → next_cell cur p = false.
Proof.
  intros Hwf Hp Hdead.
  assert (∀ q, in_grid q → ¬ alive cur q) as Hnone.
  { intros q Hq Ha. apply (filter_nil_not_elem_of _ _ q Hdead Ha).
    by apply elem_of_cells. }
  unfold next_cell. destruct p as [x y]. simpl.
  destruct (read_is_Some cur x y Hwf Hp) as [c Hc]. rewrite Hc.
  destruct c; [by destruct (Hnone (x, y) Hp)|].
  unfold life, live_neighbors.
  assert (filter (alive cur) (torus_neighbors x y) = []) as ->; [|done].
  apply elem_of_nil_inv. intros q [Ha Hq]%list_elem_of_filter.
  apply (Hnone q); [|done]. unfold torus_neighbors in Hq.
  apply list_elem_of_fmap in Hq as (d & -> & _). by apply in_grid_torus.
Qed.

(** X5: nothing is born on an empty grid: a step from a grid without live
    cells returns a grid without live cells and an empty render set. *)
Theorem Update_Simulation_dead s :
  wf_Sim s → live_cells (currentState s) = [] →
  ∃ s', Update_Simulation s = Some s' ∧
    live_cells (currentState s') = [] ∧ renderPointCount s' = 0 ∧
    ∀ x y, read (currentState s') x y ≠ Some true.
Proof.
  intros Hs Hdead.
  destruct (Update_Simulation_spec s Hs) as (s' & Hs' & Hwf & _ & Hg & Hcnt & _).
  assert (live_cells (currentState s') = []) as Hnil.
  { apply elem_of_nil_inv. intros [x y] [Ha Hp%elem_of_cells]%list_elem_of_filter.
    unfold alive in Ha. simpl in Ha. rewrite (Hg x y Hp) in Ha.
    rewrite next_cell_dead in Ha; [done|apply Hs|done..]. }
  exists s'. split_and!; try done.
  - by rewrite Hcnt, Hnil.
  - intros x y Ha. destruct (decide (in_grid (x, y))) as [Hp|Hp].
    + rewrite (Hg x y Hp), next_cell_dead in Ha; [done|apply Hs|done..].
    + destruct Hwf as ((Hl & Hc) & _). unfold read in Ha.
      destruct (index x) as [i|] eqn:Ei; [simpl in Ha|done].
      destruct (index y) as [j|] eqn:Ej; [simpl in Ha|done].
      destruct (currentState s' !! i) as [col|] eqn:Ecol; [simpl in Ha|done].
      unfold index in Ei, Ej. repeat case_match; simplify_eq.
      apply lookup_lt_Some in Ecol as Hi.
      apply (Forall_lookup_1 _ _ _ _ Hc) in Ecol.
      apply lookup_lt_Some in Ha. apply Hp. split; simpl; lia.
Qed.

Lemma step_loop_redraw cur todo : ∀ done s,
  wf_grid cur → NoDup (done ++ todo) → (∀ p, p ∈ todo → in_grid p) →
  (length done + length todo ≤ Z.to_nat (SIM_WIDTH * SIM_HEIGHT))%nat →
  step_inv cur done s →
  ∃ s', for_each todo (λ p, update_cell count_neighbors p.1 p.2) s = Some s' ∧
    needs_new_render s' =
      if decide (filter (λ p, next_cell cur p) todo = [])
      then needs_new_render s else true.
Proof.
  induction todo as [|[x y] todo IH]; intros done s Hcur Hnd Hin Hlen Hinv.
  { exists s. done. }
  assert (NoDup ((done ++ [(x, y)]) ++ todo)) as Hnd'
    by (by rewrite <- app_assoc).
  destruct (step_loop count_neighbors count_neighbors_spec cur [(x, y)] done s)
    as (s1 & Hs1 & Hinv1); try done.
  { by apply NoDup_app in Hnd' as (? & _). }
  { intros p ->%list_elem_of_singleton. apply Hin. left. }
  { simpl in *. lia. }
  pose proof Hinv as (Hc & Hn & Hrp & _ & Hcnt & _).
  pose proof (length_filter (λ p, next_cell cur p) done) as Hle.
  simpl in Hlen.
  destruct (update_cell_spec count_neighbors count_neighbors_spec x y s)
    as (g' & _ & Hupd); [by rewrite Hc|done|apply Hin; left|lia|lia|].
  cbn [for_each fst snd] in Hs1. rewrite Hupd in Hs1.
  simpl in Hs1. injection Hs1 as Hs1. rewrite Hc in Hs1.
  destruct (IH (done ++ [(x, y)]) s1) as (s' & Hrun & Hnnr); try done.
  { intros p Hp. apply Hin. by right. }
  { rewrite length_app. simpl. lia. }
  exists s'. split.
  - cbn [for_each fst snd]. rewrite Hupd, Hc. simpl. by rewrite Hs1.
  - rewrite Hnnr, filter_cons, <- Hs1.
    destruct (next_cell cur (x, y)); simpl.
    + by case_decide.
    + done.
Qed.

(** X6: a step asks for a redraw exactly when the new generation has a live
    cell: if no cell is alive after the step, [needs_new_render] is left as
    it was, although the render set has been emptied. *)
Theorem Update_Simulation_redraw s :
  wf_Sim s →
  ∃ s', Update_Simulation s = Some s' ∧
    (live_cells (currentState s') = [] →
       needs_new_render s' = needs_new_render s ∧ render_set s' = []) ∧
    (live_cells (currentState s') ≠ [] → needs_new_render s' = true).
Proof.
  intros Hs.
  destruct (Update_Simulation_spec s Hs) as (s' & Hs' & _ & _ & Hg & _ & Hset).
  exists s'. split; [done|].
  rewrite (live_cells_next (currentState s)) in * by (intros [x y]; apply Hg).
  unfold Update_Simulation, Update_Simulation_with in Hs'.
  rewrite (for_each_nested _ _ (update_cell count_neighbors)) in Hs'.
  fold cells in Hs'.
  destruct (step_loop_redraw (currentState s) cells [] (Clear_Rendered_Points s))
    as (s1 & Hrun & Hnnr).
  - apply Hs.
  - apply NoDup_cells.
  - intros p. apply elem_of_cells.
  - apply length_cells_le.
  - destruct Hs as (? & ? & ?). unfold step_inv. simpl.
    split_and!; try done. by intros p ?%elem_of_nil.
  - rewrite Hrun in Hs'. simpl in Hs'. injection Hs' as <-.
    simpl in *. rewrite Hnnr. split.
    + intros E. rewrite decide_True by done. by rewrite Hset.
    + intros E. by rewrite decide_False.
Qed.

(** ** More on the running program *)

(** On numbers the order of floats is total. *)
Lemma float_not_lt_le a b :
  is_number a → is_number b → float_lt b a = false → float_le a b = true.
Proof.
  unfold float_lt, float_le, SFltb, SFleb, SFcompare.
  destruct a as [sa| | |sa ma ea], b as [sb| | |sb mb eb]; try done;
    intros _ _.
  - by destruct sb.
  - by destruct sa.
  - destruct sa, sb; try done.
    + rewrite (Z.compare_antisym ea eb).
      destruct (ea ?= eb); cbn [CompOpp]; try done.
      pose proof (Pos.compare_cont_antisym ma mb Eq) as Hm.
      cbn [CompOpp] in Hm. rewrite <- Hm.
      by destruct (Pos.compare_cont Eq ma mb).
    + rewrite (Z.compare_antisym ea eb).
      destruct (ea ?= eb); cbn [CompOpp]; try done.
      pose proof (Pos.compare_cont_antisym ma mb Eq) as Hm.
      cbn [CompOpp] in Hm. rewrite <- Hm.
      by destruct (Pos.compare_cont Eq ma mb).
Qed.

Lemma float_not_gt_MAX r :
  is_number r → float_lt (float_of_Z MAX_STEPS_PER_SECOND) r = false →
  float_le r (float_of_Z MAX_STEPS_PER_SECOND) = true.
Proof.
  intros Hr. apply float_not_lt_le; [done|]. by rewrite float_of_Z_MAX.
Qed.

Lemma float_not_lt_0 r :
  is_number r → float_lt r (float_of_Z 0) = false →
  float_le (float_of_Z 0) r = true.
Proof. intros Hr. by apply float_not_lt_le. Qed.

Lemma wheel_upper a delta :
  float_lt (float_of_Z MAX_STEPS_PER_SECOND)
    (steps_per_second (SDL_AppEvent a (SDL_EVENT_MOUSE_WHEEL delta)).1) = false.
Proof.
  unfold SDL_AppEvent. cbn [fst steps_per_second set_steps_per_second].
  rewrite float_of_Z_0, float_of_Z_MAX.
  destruct (float_add (steps_per_second a) delta) as [s|[]| |[] m e];
    simpl; repeat case_match; done.
Qed.

Lemma app_reachable_upper a :
  app_reachable a →
  float_lt (float_of_Z MAX_STEPS_PER_SECOND) (steps_per_second a) = false.
Proof.
  induction 1 as [t0|a i a' _ IH Hok Hrun]; [done|].
  destruct i as [event|now]; simpl in Hrun.
  - injection Hrun as <-.
    destruct event; first [apply wheel_upper|done|simpl; by case_match].
  - apply SDL_AppIterate_with_rate in Hrun. by rewrite Hrun.
Qed.

(** X7: in the running program the rate stays between 0 and
    [MAX_STEPS_PER_SECOND], whatever the wheel events scroll. *)
Theorem rate_in_range a :
  app_reachable a →
  float_le (float_of_Z 0) (steps_per_second a) = true ∧
  float_le (steps_per_second a) (float_of_Z MAX_STEPS_PER_SECOND) = true.
Proof.
  intros Ha. destruct (app_reachable_rate a Ha) as [Hneg Hnum]. split.
  - by apply float_not_lt_0.
  - by apply float_not_gt_MAX, app_reachable_upper.
Qed.

(** The cell under the pointer. *)
Definition pointer_cell (a : App) : option (Z * Z) :=
  x ← Z_of_float (float_div (mouseX a) (float_of_Z RENDER_SCALE));
  y ← Z_of_float (float_div (mouseY a) (float_of_Z RENDER_SCALE));
  Some (x, y).

(** The conversions to [int]: where they are defined, they give the
    integer the float truncates to. *)
Lemma int_of_float_sound f z : int_of_float f = Some z → Z_of_float f = Some z.
Proof.
  unfold int_of_float. destruct (Z_of_float f) as [v|]; simpl; [|done].
  by intros [-> _]%int_inv.
Qed.

Lemma pointer_cell_int_inv a cx cy :
  pointer_cell_int a = Some (cx, cy) →
  int_of_float (float_div (mouseX a) (float_of_Z RENDER_SCALE)) = Some cx ∧
  int_of_float (float_div (mouseY a) (float_of_Z RENDER_SCALE)) = Some cy.
Proof.
  unfold pointer_cell_int.
  destruct (int_of_float (float_div (mouseX a) _)) as [x|]; simpl; [|done].
  destruct (int_of_float (float_div (mouseY a) _)) as [y|]; simpl; [|done].
  by intros [= -> ->].
Qed.

Lemma pointer_cell_int_sound a c :
  pointer_cell_int a = Some c → pointer_cell a = Some c.
Proof.
  destruct c as [cx cy]. intros [Hx Hy]%pointer_cell_int_inv.
  unfold pointer_cell.
  by rewrite (int_of_float_sound _ _ Hx), (int_of_float_sound _ _ Hy).
Qed.

(** Where the procedures on [int] return, the procedures on the integers
    return the same. *)
Lemma PaintCells_int_sound a a' :
  PaintCells_int a = Some a' → PaintCells a = Some a'.
Proof.
  unfold PaintCells_int, PaintCells. destruct (mouseDown a); [|done].
  destruct (int_of_float (float_div (mouseX a) _)) as [x|] eqn:Ex; [|done].
  destruct (int_of_float (float_div (mouseY a) _)) as [y|] eqn:Ey; [|done].
  rewrite (int_of_float_sound _ _ Ex), (int_of_float_sound _ _ Ey).
  cbn [mbind option_bind]. destruct (mouseWasDown a); [|done].
  destruct (Paint_Line_int _ _ _ _ _) as [s|] eqn:Es; [|done].
  apply Paint_Line_int_sound in Es. unfold Paint_Line. by rewrite Es.
Qed.

Lemma SDL_AppIterate_int_sound now a a' :
  SDL_AppIterate_int now a = Some a' → SDL_AppIterate now a = Some a'.
Proof.
  unfold SDL_AppIterate_int, SDL_AppIterate, SDL_AppIterate_with.
  destruct (PaintCells_int a) as [a1|] eqn:Ep; [|done].
  by rewrite (PaintCells_int_sound _ _ Ep).
Qed.

Lemma app_reachable_int_sound a : app_reachable_int a → app_reachable a.
Proof.
  induction 1 as [t0|a i a' _ IH Hok Hrun]; [apply app_reachable_initial|].
  apply (app_reachable_input a i); [done..|].
  destruct i as [event|now]; [done|]. by apply SDL_AppIterate_int_sound.
Qed.

(** X8: while the button is down and the pointer has a cell, a frame paints
    that cell if the button has just gone down, and the line from the cell
    of the last frame to it otherwise, provided the two cells lie in the
    range where no operation on [int] overflows; it makes alive the cells of
    that stroke that lie in the grid and no other, and remembers the cell
    for the next frame. *)
Theorem PaintCells_int_stroke a cx cy :
  Inv (sim a) → mouseDown a = true → pointer_cell_int a = Some (cx, cy) →
  (mouseWasDown a = true →
   line_range (lastMouseCellX a) (lastMouseCellY a) cx cy) →
  ∃ a' pts,
    PaintCells_int a = Some a' ∧
    (if mouseWasDown a
     then Paint_Line_int_trace (lastMouseCellX a) (lastMouseCellY a) cx cy =
            Some pts
     else pts = [(cx, cy)]) ∧
    (∀ p, alive (currentState (sim a')) p ↔
          alive (currentState (sim a)) p ∨ (p ∈ pts ∧ in_grid p)) ∧
    Inv (sim a') ∧
    lastMouseCellX a' = cx ∧ lastMouseCellY a' = cy ∧ mouseWasDown a' = true.
Proof.
  intros Ha Hdown [Ex Ey]%pointer_cell_int_inv Hrange.
  unfold PaintCells_int. rewrite Hdown, Ex, Ey. cbn [mbind option_bind].
  destruct (mouseWasDown a).
  - specialize (Hrange eq_refl).
    destruct (Paint_Line_points (lastMouseCellX a) (lastMouseCellY a) cx cy)
      as (pts & Hrun & _).
    destruct (paint_each_Inv pts (sim a) Ha) as (s' & Hp & Hs' & _ & Hiff).
    unfold Paint_Line_int. rewrite Paint_Line_int_eq by done.
    rewrite Hrun, Hp. cbn [mbind option_bind].
    eexists _, pts. split; [done|]. simpl. split_and!; try done.
    unfold Paint_Line_int_trace. rewrite Paint_Line_int_eq by done.
    rewrite Hrun. apply for_each_record.
  - destruct (paint_each_Inv [(cx, cy)] (sim a) Ha) as (s' & Hp & Hs' & _ & Hiff).
    cbn [for_each fst snd] in Hp.
    destruct (paint (sim a) cx cy) as [s1|]; [simpl in Hp|done].
    injection Hp as ->. cbn [mbind option_bind].
    eexists _, [(cx, cy)]. split; [done|]. simpl. by split_and!.
Qed.

Lemma PaintCells_returns a :
  Inv (sim a) → (mouseDown a = true → is_Some (pointer_cell a)) →
  ∃ a1, PaintCells a = Some a1.
Proof.
  intros Ha Hcell. unfold PaintCells.
  destruct (mouseDown a); [|simpl; eauto].
  destruct Hcell as [[cx cy] Hc]; [done|]. unfold pointer_cell in Hc.
  destruct (Z_of_float (float_div (mouseX a) _)) as [x|]; [|done].
  destruct (Z_of_float (float_div (mouseY a) _)) as [y|]; [|done].
  cbn [mbind option_bind]. destruct (mouseWasDown a).
  - destruct (Paint_Line_Inv (sim a) (lastMouseCellX a) (lastMouseCellY a) x y Ha)
      as (s & -> & _). simpl. eauto.
  - destruct (paint_Inv (sim a) x y Ha) as (s & -> & _). simpl. eauto.
Qed.

Lemma PaintCells_int_returns a :
  Inv (sim a) → pointer_ok a →
  ∃ a1, PaintCells_int a = Some a1 ∧ Inv (sim a1).
Proof.
  intros Ha Hcell. unfold PaintCells_int, pointer_ok in *.
  destruct (mouseDown a); [|simpl; eauto].
  destruct Hcell as (cx & cy & [Ex Ey]%pointer_cell_int_inv & Hrange); [done|].
  rewrite Ex, Ey. cbn [mbind option_bind]. destruct (mouseWasDown a).
  - unfold Paint_Line_int. rewrite Paint_Line_int_eq by auto.
    destruct (Paint_Line_Inv (sim a) (lastMouseCellX a) (lastMouseCellY a)
                cx cy Ha) as (s & Hs & Hinv).
    unfold Paint_Line in Hs. rewrite Hs. simpl. eauto.
  - destruct (paint_Inv (sim a) cx cy Ha) as (s & -> & Hinv). simpl. eauto.
Qed.

(** X9: a frame tick of the running program returns whenever the button is
    up, or the pointer position has a cell and the stroke from the cell of
    the last frame stays in the range where no operation on [int]
    overflows: no tick reads or writes outside the grid or the render
    buffer. *)
Theorem SDL_AppIterate_int_safe a now :
  app_reachable_int a → pointer_ok a →
  ∃ a', SDL_AppIterate_int now a = Some a' ∧ app_reachable_int a' ∧
        needs_new_render (sim a') = false.
Proof.
  intros Hreach Hcell.
  pose proof (app_reachable_Inv a (app_reachable_int_sound a Hreach)) as Ha.
  destruct (PaintCells_int_returns a Ha Hcell) as (a1 & Hp & Ha1).
  assert (∃ a', SDL_AppIterate_int now a = Some a' ∧
                needs_new_render (sim a') = false) as (a' & Hrun & Hdrawn).
  { unfold SDL_AppIterate_int. rewrite Hp.
    cbn [mbind option_bind].
    assert (∀ a2, ∃ a',
      Some (if needs_new_render (sim a2)
            then set_sim a2 (rendered (sim a2)) else a2) = Some a' ∧
      needs_new_render (sim a') = false) as Hdraw.
    { intros a2. eexists. split; [done|].
      by destruct (needs_new_render (sim a2)) eqn:E. }
    destruct (float_lt _ _); [|apply Hdraw].
    destruct (float_le _ _); [|apply Hdraw].
    destruct (Update_Simulation_Inv (sim a1)) as (s & -> & _); [apply Ha1|].
    apply Hdraw. }
  exists a'. split_and!; try done.
  by apply (app_reachable_int_input a (InFrame now)).
Qed.

(** The states a list of inputs leads to. *)
Lemma app_reachable_int_inputs inputs : ∀ a a',
  app_reachable_int a → Forall input_ok inputs →
  for_each inputs run_input_int a = Some a' → app_reachable_int a'.
Proof.
  induction inputs as [|i inputs IH]; intros a a' Ha Hok; simpl.
  { by intros [= <-]. }
  apply Forall_cons in Hok as [Hi Hok].
  destruct (run_input_int i a) as [a1|] eqn:E; simpl; [|done].
  apply IH; [|done]. by apply (app_reachable_int_input a i).
Qed.


Lemma pixel_cell n :
  0 ≤ n < 4096 →
  Z_of_float (float_div (float_of_Z n) (float_of_Z RENDER_SCALE)) =
  Some (n `div` RENDER_SCALE).
Proof.
  intros Hn.
  assert (forallb (λ n,
            bool_decide
              (Z_of_float (float_div (float_of_Z n) (float_of_Z RENDER_SCALE)) =
               Some (n `div` RENDER_SCALE)))
            (seqZ 0 4096) = true) as Hall by (vm_compute; reflexivity).
  rewrite forallb_forall in Hall.
  eapply bool_decide_eq_true_1, Hall, list_elem_of_In, elem_of_seqZ. lia.
Qed.

(** X10: for a pointer at whole pixels inside a window of up to 4096 by
    4096 pixels, the cell under the pointer is the pixel position divided
    by [RENDER_SCALE], rounded down. *)
Theorem pointer_cell_pixels a px py :
  0 ≤ px < 4096 → 0 ≤ py < 4096 →
  mouseX a = float_of_Z px → mouseY a = float_of_Z py →
  pointer_cell a = Some (px `div` RENDER_SCALE, py `div` RENDER_SCALE).
Proof.
  intros Hx Hy Ex Ey. unfold pointer_cell.
  by rewrite Ex, Ey, !pixel_cell.
Qed.


Lemma gate_whole_rates r e :
  1 ≤ r ≤ MAX_STEPS_PER_SECOND → 0 ≤ e < 4096 →
  float_le (float_div (float_of_Z 1) (float_of_Z r))
           (float_div (float_of_Z e) (float_of_Z 1000)) =
  (1000 <=? e * r).
Proof.
  intros Hr He.
  assert ((let rates :=
             (λ r, (r, float_div (float_of_Z 1) (float_of_Z r))) <$>
               seqZ 1 MAX_STEPS_PER_SECOND in
           forallb (λ e,
             let elapsed := float_div (float_of_Z e) (float_of_Z 1000) in
             forallb (λ rate : Z * float,
                        bool_decide (float_le rate.2 elapsed =
                                     (1000 <=? e * rate.1))) rates)
             (seqZ 0 4096)) = true) as Hall by (vm_compute; reflexivity).
  cbv zeta in Hall. rewrite forallb_forall in Hall.
  assert (In e (seqZ 0 4096)) as Hine
    by (apply list_elem_of_In, elem_of_seqZ; lia).
  specialize (Hall e Hine). rewrite forallb_forall in Hall.
  assert (In (r, float_div (float_of_Z 1) (float_of_Z r))
             ((λ r, (r, float_div (float_of_Z 1) (float_of_Z r))) <$>
                seqZ 1 MAX_STEPS_PER_SECOND)) as Hinr.
  { apply list_elem_of_In, list_elem_of_fmap. exists r. split; [done|].
    apply elem_of_seqZ. unfold MAX_STEPS_PER_SECOND in *. lia. }
  apply (bool_decide_eq_true_1 _ (Hall _ Hinr)).
Qed.

Lemma PaintCells_last_step_time a a' :
  PaintCells a = Some a' → last_step_time a' = last_step_time a.
Proof.
  unfold PaintCells. intros Hp.
  repeat (simplify_option_eq || case_match); done.
Qed.

(** X11: at a whole rate of [r] steps per second a frame tick advances the
    simulation exactly when at least [1000 / r] milliseconds have passed
    since the last step, and then takes the time of the tick as the time of
    the last step, however much time has passed: one tick, one step. *)
Theorem SDL_AppIterate_pacing a r e :
  Inv (sim a) → (mouseDown a = true → is_Some (pointer_cell a)) →
  steps_per_second a = float_of_Z r → 1 ≤ r ≤ MAX_STEPS_PER_SECOND →
  0 ≤ e < 4096 → 0 ≤ last_step_time a → last_step_time a + e < 2 ^ 64 →
  ∃ a1 a',
    PaintCells a = Some a1 ∧
    SDL_AppIterate (last_step_time a + e) a = Some a' ∧
    (if 1000 <=? e * r
     then last_step_time a' = last_step_time a + e ∧
          Some (currentState (sim a')) =
            currentState <$> Update_Simulation (sim a1)
     else last_step_time a' = last_step_time a ∧
          currentState (sim a') = currentState (sim a1)).
Proof.
  intros Ha Hcell Hrate Hr He Hlast Hnow.
  destruct (PaintCells_returns a Ha Hcell) as [a1 Hp].
  pose proof (PaintCells_Inv a a1 Ha Hp) as Ha1.
  pose proof (PaintCells_rate a a1 Hp) as Hrate1.
  pose proof (PaintCells_last_step_time a a1 Hp) as Hlast1.
  exists a1. unfold SDL_AppIterate, SDL_AppIterate_with. rewrite Hp.
  cbn [mbind option_bind]. rewrite Hrate1, Hrate, Hlast1.
  replace (last_step_time a + e - last_step_time a) with e by lia.
  rewrite (Z.mod_small e) by lia.
  assert (float_lt (float_of_Z 0) (float_of_Z r) = true) as ->.
  { assert (forallb (λ r, float_lt (float_of_Z 0) (float_of_Z r))
              (seqZ 1 MAX_STEPS_PER_SECOND) = true) as Hall
      by (vm_compute; reflexivity).
    rewrite forallb_forall in Hall.
    apply Hall, list_elem_of_In, elem_of_seqZ.
    unfold MAX_STEPS_PER_SECOND in *. lia. }
  rewrite gate_whole_rates by done.
  destruct (1000 <=? e * r).
  - destruct (Update_Simulation_Inv (sim a1)) as (s & Hs & _); [apply Ha1|].
    rewrite Hs. cbn [mbind option_bind fmap option_fmap option_map].
    eexists. split; [done|]. split; [done|].
    by destruct (needs_new_render _).
  - eexists. split; [done|]. split; [done|].
    by destruct (needs_new_render _).
Qed.

(** X12: a click that is pressed and released between two frame ticks
    paints nothing: the next tick finds the button up, leaves the grid and
    the render buffer as they are, and forgets the stroke. *)
Theorem click_between_frames a x y :
  let a2 := (SDL_AppEvent (SDL_AppEvent a (SDL_EVENT_MOUSE_BUTTON_DOWN 1 x y)).1
                          (SDL_EVENT_MOUSE_BUTTON_UP 1)).1 in
  ∃ a', PaintCells a2 = Some a' ∧ sim a' = sim a ∧ mouseWasDown a' = false.
Proof. simpl. eexists. by split_and!. Qed.

End Simulation.

(** * Instances: a 5×5 torus *)

(** A blinker, as a stroke from (1,2) to (3,2) paints it on the empty grid. *)
Definition blinker : Sim :=
  mkSim [[false; false; false; false; false];
         [false; false; true; false; false];
         [false; false; true; false; false];
         [false; false; true; false; false];
         [false; false; false; false; false]]
        (dead_grid 5 5)
        ([(1, 2); (2, 2); (3, 2)] ++ replicate 22 (0, 0)) 3 true.

(** The same blinker two steps later: the other buffer holds the stale
    generation in between. *)
Definition blinker_stale : Sim :=
  mkSim (currentState blinker)
        [[false; false; false; false; false];
         [false; false; false; false; false];
         [false; true; true; true; false];
         [false; false; false; false; false];
         [false; false; false; false; false]]
        (renderPoints blinker) 3 true.

(** One live cell, at the origin. *)
Definition corner : Grid :=
  [[true; false; false; false; false];
   [false; false; false; false; false];
   [false; false; false; false; false];
   [false; false; false; false; false];
   [false; false; false; false; false]].

Ltac solve_shape := repeat split; first [reflexivity | repeat constructor].

Example blinker_painted :
  Paint_Line 5 5 1 2 3 2 (initial_Sim 5 5) = Some blinker.
Proof. reflexivity. Qed.

Example blinker_period :
  (Update_Simulation 5 5 blinker ≫= Update_Simulation 5 5) = Some blinker_stale.
Proof. reflexivity. Qed.

Example blinker_turns :
  render_set <$> Update_Simulation 5 5 blinker = Some [(2, 1); (2, 2); (2, 3)].
Proof. reflexivity. Qed.

(** A glider on a 6×6 torus is the same shape, one cell further along both
    axes, after 4 steps. *)
Example glider_moves :
  let step s := Update_Simulation 6 6 s in
  let glider := [(1, 0); (2, 1); (0, 2); (1, 2); (2, 2)] in
  render_set <$>
    (s ← for_each glider (λ p s, paint 6 6 s p.1 p.2) (initial_Sim 6 6);
     s ← step s; s ← step s; s ← step s; step s) =
  Some (filter (λ p, p ∈ (λ q, (q.1 + 1, q.2 + 1)) <$> glider) (cells 6 6)).
Proof. reflexivity. Qed.

Example dead_stays_dead :
  render_set <$> Update_Simulation 5 5 (initial_Sim 5 5) = Some [].
Proof. reflexivity. Qed.

Example cells_order :
  cells 2 3 = [(0, 0); (0, 1); (0, 2); (1, 0); (1, 1); (1, 2)].
Proof. reflexivity. Qed.

Example line_steep :
  Paint_Line_trace 0 0 3 7 =
  Some [(0, 0); (0, 1); (1, 2); (1, 3); (2, 4); (2, 5); (3, 6); (3, 7)].
Proof. reflexivity. Qed.

Example line_shallow :
  Paint_Line_trace 0 0 7 3 =
  Some [(0, 0); (1, 0); (2, 1); (3, 1); (4, 2); (5, 2); (6, 3); (7, 3)].
Proof. reflexivity. Qed.

Example line_swapped : Paint_Line_trace 7 3 0 0 = Paint_Line_trace 0 0 7 3.
Proof. reflexivity. Qed.

Example line_horizontal :
  Paint_Line_trace 0 0 5 0 = Some [(0, 0); (1, 0); (2, 0); (3, 0); (4, 0); (5, 0)].
Proof. reflexivity. Qed.

(** On [int] the lines are the same, as long as nothing overflows. *)
Example line_steep_int :
  Paint_Line_int_trace 0 0 3 7 =
  Some [(0, 0); (0, 1); (1, 2); (1, 3); (2, 4); (2, 5); (3, 6); (3, 7)].
Proof. reflexivity. Qed.

Example line_shallow_int :
  Paint_Line_int_trace 0 0 7 3 =
  Some [(0, 0); (1, 0); (2, 1); (3, 1); (4, 2); (5, 2); (6, 3); (7, 3)].
Proof. reflexivity. Qed.

Example line_diagonal_int :
  Paint_Line_int_trace 0 0 3 3 = Some [(0, 0); (1, 1); (2, 2); (3, 3)].
Proof. reflexivity. Qed.

Example blinker_painted_int :
  Paint_Line_int 5 5 1 2 3 2 (initial_Sim 5 5) = Some blinker.
Proof. reflexivity. Qed.

(** A pointer position beyond the range of [int] has no cell. *)
Example pointer_far_away :
  Z_of_float (float_div (float_of_Z (10 ^ 10)) (float_of_Z RENDER_SCALE)) =
    Some 2500000000 ∧
  int_of_float (float_div (float_of_Z (10 ^ 10)) (float_of_Z RENDER_SCALE)) =
    None.
Proof. split; reflexivity. Qed.

Example paint_outside :
  Try_Paint_Point 5 5 blinker 4 4 = Some
    (mkSim [[false; false; false; false; false];
            [false; false; true; false; false];
            [false; false; true; false; false];
            [false; false; true; false; false];
            [false; false; false; false; true]]
           (dead_grid 5 5)
           ([(1, 2); (2, 2); (3, 2); (4, 4)] ++ replicate 21 (0, 0)) 4 true,
     true) ∧
  Try_Paint_Point 5 5 blinker 5 0 = Some (blinker, false) ∧
  Try_Paint_Point 5 5 blinker (-1) 0 = Some (blinker, false) ∧
  Try_Paint_Point 5 5 blinker 0 5 = Some (blinker, false) ∧
  Try_Paint_Point 5 5 blinker 2 2 = Some (blinker, true).
Proof. repeat split. Qed.

(** At 20 steps per second a tick 50 ms after the last step advances the
    simulation, and a tick 49 ms after it does not. *)
Example tick_at_rate_20 :
  let a := set_steps_per_second (initial_App 5 5 0) (float_of_Z 20) in
  last_step_time <$> SDL_AppIterate 5 5 50 a = Some 50 ∧
  last_step_time <$> SDL_AppIterate 5 5 49 a = Some 0.
Proof. split; reflexivity. Qed.

Example wheel_clamps :
  let wheel a d := (SDL_AppEvent a (SDL_EVENT_MOUSE_WHEEL (float_of_Z d))).1 in
  steps_per_second (wheel (initial_App 5 5 0) (-3)) = float_of_Z 0 ∧
  steps_per_second (wheel (initial_App 5 5 0) 7) = float_of_Z 7 ∧
  steps_per_second (wheel (wheel (initial_App 5 5 0) 15) 15) = float_of_Z 20.
Proof. repeat split. Qed.

(** ** The theorems at these instances *)

Lemma Update_Simulation_rule_witness :
  wf_Sim 5 5 blinker ∧
  ∃ s', Update_Simulation 5 5 blinker = Some s' ∧
    ∀ x y, in_grid 5 5 (x, y) →
      let n := live_neighbors 5 5 (currentState blinker) x y in
      (n = 3 → read (currentState s') x y = Some true) ∧
      (n = 2 → read (currentState s') x y = read (currentState blinker) x y) ∧
      (n < 2 ∨ 4 ≤ n → read (currentState s') x y = Some false).
Proof.
  split; [solve_shape|apply Update_Simulation_rule; solve_shape].
Defined.

Lemma count_neighbors_torus_witness :
  wf_grid 5 5 corner ∧ 0 < 5 ∧ 0 < 5 ∧
  (alive corner (0, 0) →
   ∀ p, p ∈ [(5 - 1, 0); (0, 5 - 1); (5 - 1, 5 - 1)] →
     (0, 0) ∈ torus_neighbors 5 5 p.1 p.2 ∧
     ∃ n, count_neighbors 5 5 corner p.1 p.2 = Some n ∧ 1 ≤ n).
Proof.
  split; [solve_shape|]. split; [lia|]. split; [lia|].
  apply (count_neighbors_torus 5 5 corner); [solve_shape|lia|lia].
Defined.

Lemma Update_Simulation_early_exit_witness :
  wf_Sim 5 5 blinker ∧
  ∃ s', Update_Simulation 5 5 blinker = Some s' ∧
        Update_Simulation_exhaustive 5 5 blinker = Some s'.
Proof.
  split; [solve_shape|apply Update_Simulation_early_exit; solve_shape].
Defined.

Lemma Update_Simulation_next_irrelevant_witness :
  wf_Sim 5 5 blinker ∧ wf_Sim 5 5 blinker_stale ∧
  currentState blinker = currentState blinker_stale ∧
  ∃ s1' s2',
    Update_Simulation 5 5 blinker = Some s1' ∧
    Update_Simulation 5 5 blinker_stale = Some s2' ∧
    currentState s1' = next_generation 5 5 (currentState blinker) ∧
    currentState s2' = next_generation 5 5 (currentState blinker) ∧
    (∀ x y, in_grid 5 5 (x, y) →
       read (currentState s1') x y =
         Some (next_cell 5 5 (currentState blinker) (x, y)) ∧
       read (currentState s2') x y =
         Some (next_cell 5 5 (currentState blinker) (x, y))) ∧
    nextState s1' = currentState blinker ∧
    nextState s2' = currentState blinker ∧
    currentState s1' = currentState s2' ∧ render_set s1' = render_set s2'.
Proof.
  split; [solve_shape|]. split; [solve_shape|]. split; [reflexivity|].
  apply Update_Simulation_next_irrelevant; solve_shape.
Defined.

Lemma Paint_Line_int_connected_witness :
  line_range 0 0 3 7 ∧
  ∃ pts,
    Paint_Line_int_trace 0 0 3 7 = Some pts ∧
    (∀ s, Paint_Line_int 5 5 0 0 3 7 s =
          for_each pts (λ p s, paint 5 5 s p.1 p.2) s) ∧
    (∀ i p q, pts !! i = Some p → pts !! S i = Some q →
       Z.abs (q.1 - p.1) ≤ 1 ∧ Z.abs (q.2 - p.2) ≤ 1) ∧
    ((head pts = Some (0, 0) ∧ last pts = Some (3, 7)) ∨
     (head pts = Some (3, 7) ∧ last pts = Some (0, 0))).
Proof.
  assert (line_range 0 0 3 7) as Hrange
    by (unfold line_range, line_coord; lia).
  split; [exact Hrange|]. apply (Paint_Line_int_connected 5 5), Hrange.
Defined.

Lemma Paint_Line_int_point_witness :
  INT_MIN ≤ 2 < INT_MAX ∧
  Paint_Line_int_trace 2 2 2 2 = Some [(2, 2)] ∧
  (Z.abs (2 - 2) <=? Z.abs (2 - 2)) = true ∧
  range_le 2 2 = [2] ∧
  (∀ St (visit : St → Z → Z → option St) s,
     Paint_Line_int_with visit 2 2 2 2 s =
       Paint_Line_Shallow_int_with visit 2 2 2 2 0 0 s ∧
     Paint_Line_int_with visit 2 2 2 2 s = visit s 2 2) ∧
  Paint_Line_int_trace 2 2 2 2 = Some [(2, 2)].
Proof.
  assert (INT_MIN ≤ 2 < INT_MAX) as Hx by (unfold INT_MIN, INT_MAX; lia).
  split; [exact Hx|]. apply (Paint_Line_int_point 2 2), Hx.
Defined.

Lemma blinker_Inv : Inv 5 5 blinker.
Proof. split; [solve_shape|]. split; reflexivity. Defined.

Lemma Try_Paint_Point_bounds_witness :
  Inv 5 5 blinker ∧
  ∃ s' b, Try_Paint_Point 5 5 blinker 4 4 = Some (s', b) ∧
    (b = true ↔ (0 ≤ 4 < 5) ∧ (0 ≤ 4 < 5)) ∧
    (b = false → s' = blinker) ∧
    nextState s' = nextState blinker ∧
    (b = true →
       read (currentState s') 4 4 = Some true ∧
       (∀ x' y', (x', y') ≠ (4, 4) →
          read (currentState s') x' y' = read (currentState blinker) x' y') ∧
       (read (currentState blinker) 4 4 = Some true → s' = blinker) ∧
       (read (currentState blinker) 4 4 = Some false →
          render_set s' = render_set blinker ++ [(4, 4)])).
Proof.
  split; [apply blinker_Inv|].
  apply Try_Paint_Point_bounds, blinker_Inv.
Defined.

Lemma Update_Simulation_render_set_witness :
  wf_Sim 5 5 blinker ∧
  ∃ s', Update_Simulation 5 5 blinker = Some s' ∧
    render_set s' = filter (alive (currentState s')) (cells 5 5) ∧
    renderPointCount s' = Z.of_nat (length (render_set s')) ∧
    NoDup (render_set s') ∧
    (∀ p, p ∈ render_set s' ↔ in_grid 5 5 p ∧ alive (currentState s') p) ∧
    (∀ t op t', op ≠ OpStep → run_op 5 5 op t = Some t' →
       render_set t `prefix_of` render_set t').
Proof.
  split; [solve_shape|apply Update_Simulation_render_set; solve_shape].
Defined.

Lemma paused_never_steps_witness :
  float_eq (steps_per_second (initial_App 5 5 0)) (float_of_Z 0) = true ∧
  frames 5 5 (Update_Simulation 5 5) [16; 1000; 100000] (initial_App 5 5 0) =
  frames 5 5 never_called [16; 1000; 100000] (initial_App 5 5 0).
Proof.
  split; [reflexivity|].
  apply (paused_never_steps 5 5 (initial_App 5 5 0)). reflexivity.
Defined.

Lemma blinker_reachable : reachable 5 5 blinker.
Proof.
  apply (reachable_op 5 5 (initial_Sim 5 5) (OpPaintLine 1 2 3 2));
    [apply reachable_initial|reflexivity].
Defined.

Lemma reachable_render_buffer_witness :
  0 < 5 ∧ 0 < 5 ∧ reachable 5 5 blinker ∧
  renderPointCount blinker =
    Z.of_nat (length (live_cells 5 5 (currentState blinker))) ∧
  NoDup (render_set blinker) ∧
  (∀ p, p ∈ render_set blinker ↔
        in_grid 5 5 p ∧ alive (currentState blinker) p) ∧
  0 ≤ renderPointCount blinker ≤ 5 * 5 ∧
  length (renderPoints blinker) = Z.to_nat (5 * 5) ∧
  (∀ op, ∃ s', run_op 5 5 op blinker = Some s' ∧ reachable 5 5 s').
Proof.
  split; [lia|]. split; [lia|]. split; [apply blinker_reachable|].
  apply reachable_render_buffer; [lia|lia|apply blinker_reachable].
Defined.

(** ** The further properties at instances *)

(** A lone cell, drawn already: it dies in the next step. *)
Definition lone_cell : Sim :=
  mkSim [[false; false; false; false; false];
         [false; false; false; false; false];
         [false; false; true; false; false];
         [false; false; false; false; false];
         [false; false; false; false; false]]
        (dead_grid 5 5)
        ([(2, 2)] ++ replicate 24 (0, 0)) 1 false.

(** The pointer dragged from cell (3,2) to the pixel (5,6), in cell (1,1). *)
Definition dragging : App :=
  mkApp blinker 0 (float_of_Z 20) true (float_of_Z 5) (float_of_Z 6) 3 2 true.

Lemma initial_Inv_5x5 : Inv 5 5 (initial_Sim 5 5).
Proof. split; [solve_shape|]. split; reflexivity. Defined.

Lemma scrolled_reachable :
  app_reachable 5 5
    (SDL_AppEvent (initial_App 5 5 0) (SDL_EVENT_MOUSE_WHEEL (float_of_Z 3))).1.
Proof.
  apply (app_reachable_input 5 5 (initial_App 5 5 0)
           (InEvent (SDL_EVENT_MOUSE_WHEEL (float_of_Z 3))));
    [apply app_reachable_initial|discriminate|reflexivity].
Defined.

Lemma Paint_Line_int_near_line_witness :
  line_range 0 0 7 3 ∧
  ∃ pts,
    Paint_Line_int_trace 0 0 7 3 = Some pts ∧
    Z.of_nat (length pts) = Z.max (Z.abs (7 - 0)) (Z.abs (3 - 0)) + 1 ∧
    ∀ x y, (x, y) ∈ pts →
      (Z.min 0 7 ≤ x ≤ Z.max 0 7) ∧ (Z.min 0 3 ≤ y ≤ Z.max 0 3) ∧
      2 * Z.abs ((7 - 0) * (y - 0) - (3 - 0) * (x - 0)) ≤
        Z.max (Z.abs (7 - 0)) (Z.abs (3 - 0)).
Proof.
  assert (line_range 0 0 7 3) as Hrange
    by (unfold line_range, line_coord; lia).
  split; [exact Hrange|]. apply Paint_Line_int_near_line, Hrange.
Defined.

Lemma Paint_Line_int_symmetric_witness :
  line_range 7 3 0 0 ∧
  Paint_Line_int_with record 7 3 0 0 [] = Paint_Line_int_with record 0 0 7 3 [].
Proof.
  assert (line_range 7 3 0 0) as Hrange
    by (unfold line_range, line_coord; lia).
  split; [exact Hrange|].
  exact (Paint_Line_int_symmetric record 7 3 0 0 [] Hrange).
Defined.

Lemma Paint_Line_int_paints_witness :
  line_range 3 3 7 5 ∧ Inv 5 5 blinker ∧
  ∃ s' pts,
    Paint_Line_int 5 5 3 3 7 5 blinker = Some s' ∧
    Paint_Line_int_trace 3 3 7 5 = Some pts ∧
    nextState s' = nextState blinker ∧
    ∀ x y, read (currentState s') x y = Some true ↔
           read (currentState blinker) x y = Some true ∨
           ((x, y) ∈ pts ∧ (0 ≤ x < 5) ∧ (0 ≤ y < 5)).
Proof.
  assert (line_range 3 3 7 5) as Hrange
    by (unfold line_range, line_coord; lia).
  split; [exact Hrange|]. split; [apply blinker_Inv|].
  apply Paint_Line_int_paints; [exact Hrange|apply blinker_Inv].
Defined.

Lemma paint_again_witness :
  Inv 5 5 blinker ∧
  (∀ x y s', paint 5 5 blinker x y = Some s' → paint 5 5 s' x y = Some s') ∧
  (∀ x0 y0 x1 y1 s',
     Paint_Line 5 5 x0 y0 x1 y1 blinker = Some s' →
     Paint_Line 5 5 x0 y0 x1 y1 s' = Some s').
Proof.
  split; [apply blinker_Inv|apply paint_again, blinker_Inv].
Defined.

Lemma Update_Simulation_dead_witness :
  wf_Sim 5 5 (initial_Sim 5 5) ∧
  live_cells 5 5 (currentState (initial_Sim 5 5)) = [] ∧
  ∃ s', Update_Simulation 5 5 (initial_Sim 5 5) = Some s' ∧
    live_cells 5 5 (currentState s') = [] ∧ renderPointCount s' = 0 ∧
    ∀ x y, read (currentState s') x y ≠ Some true.
Proof.
  split; [solve_shape|]. split; [reflexivity|].
  apply Update_Simulation_dead; [solve_shape|reflexivity].
Defined.

Lemma Update_Simulation_redraw_witness :
  wf_Sim 5 5 lone_cell ∧
  ∃ s', Update_Simulation 5 5 lone_cell = Some s' ∧
    (live_cells 5 5 (currentState s') = [] →
       needs_new_render s' = needs_new_render lone_cell ∧ render_set s' = []) ∧
    (live_cells 5 5 (currentState s') ≠ [] → needs_new_render s' = true).
Proof.
  split; [solve_shape|apply Update_Simulation_redraw; solve_shape].
Defined.

Example lone_cell_not_redrawn :
  (λ s, (render_set s, needs_new_render s)) <$> Update_Simulation 5 5 lone_cell =
  Some ([], false).
Proof. reflexivity. Qed.

Lemma rate_in_range_witness :
  let a := (SDL_AppEvent (initial_App 5 5 0)
              (SDL_EVENT_MOUSE_WHEEL (float_of_Z 3))).1 in
  app_reachable 5 5 a ∧
  float_le (float_of_Z 0) (steps_per_second a) = true ∧
  float_le (steps_per_second a) (float_of_Z MAX_STEPS_PER_SECOND) = true.
Proof.
  split; [apply scrolled_reachable|apply (rate_in_range 5 5), scrolled_reachable].
Defined.

Lemma PaintCells_int_stroke_witness :
  Inv 5 5 (sim dragging) ∧ mouseDown dragging = true ∧
  pointer_cell_int dragging = Some (1, 1) ∧
  mouseWasDown dragging = true ∧
  line_range (lastMouseCellX dragging) (lastMouseCellY dragging) 1 1 ∧
  ∃ a' pts,
    PaintCells_int 5 5 dragging = Some a' ∧
    (if mouseWasDown dragging
     then Paint_Line_int_trace (lastMouseCellX dragging)
            (lastMouseCellY dragging) 1 1 = Some pts
     else pts = [(1, 1)]) ∧
    (∀ p, alive (currentState (sim a')) p ↔
          alive (currentState (sim dragging)) p ∨ (p ∈ pts ∧ in_grid 5 5 p)) ∧
    Inv 5 5 (sim a') ∧
    lastMouseCellX a' = 1 ∧ lastMouseCellY a' = 1 ∧ mouseWasDown a' = true.
Proof.
  assert (line_range (lastMouseCellX dragging) (lastMouseCellY dragging) 1 1)
    as Hrange by (unfold line_range, line_coord; simpl; lia).
  split; [apply blinker_Inv|]. split; [reflexivity|]. split; [reflexivity|].
  split; [reflexivity|]. split; [exact Hrange|].
  apply PaintCells_int_stroke;
    [apply blinker_Inv|reflexivity|reflexivity|intros _; exact Hrange].
Defined.

(** The button pressed at the pixel (13,9), a frame tick, and the pointer
    dragged to the pixel (5,6): the state in which the next tick paints the
    stroke from cell (3,2) to cell (1,1). *)
Definition drag_inputs : list Input :=
  [InEvent (SDL_EVENT_MOUSE_BUTTON_DOWN 1 (float_of_Z 13) (float_of_Z 9));
   InFrame 16;
   InEvent (SDL_EVENT_MOUSE_MOTION (float_of_Z 5) (float_of_Z 6))].

Definition dragged : App :=
  mkApp (mkSim [[false; false; false; false; false];
                [false; false; false; false; false];
                [false; false; false; false; false];
                [false; false; true; false; false];
                [false; false; false; false; false]]
               (dead_grid 5 5)
               ([(3, 2)] ++ replicate 24 (0, 0)) 1 false)
        0 (S754_zero false) true (float_of_Z 5) (float_of_Z 6) 3 2 true.

Lemma dragged_reachable : app_reachable_int 5 5 dragged.
Proof.
  apply (app_reachable_int_inputs 5 5 drag_inputs (initial_App 5 5 0));
    [apply app_reachable_int_initial|repeat constructor|reflexivity].
Defined.

Lemma SDL_AppIterate_int_safe_witness :
  app_reachable_int 5 5 dragged ∧
  mouseDown dragged = true ∧ mouseWasDown dragged = true ∧
  pointer_cell_int dragged = Some (1, 1) ∧
  line_range (lastMouseCellX dragged) (lastMouseCellY dragged) 1 1 ∧
  ∃ a', SDL_AppIterate_int 5 5 32 dragged = Some a' ∧
        app_reachable_int 5 5 a' ∧ needs_new_render (sim a') = false.
Proof.
  assert (line_range (lastMouseCellX dragged) (lastMouseCellY dragged) 1 1)
    as Hrange by (unfold line_range, line_coord; simpl; lia).
  split; [apply dragged_reachable|]. split; [reflexivity|].
  split; [reflexivity|]. split; [reflexivity|]. split; [exact Hrange|].
  apply SDL_AppIterate_int_safe; [apply dragged_reachable|].
  intros _. exists 1, 1. split; [reflexivity|]. intros _. exact Hrange.
Defined.

(** That tick paints the stroke: the cells (1,1) and (2,1) join (3,2). *)
Example dragged_stroke :
  (λ a, render_set (sim a)) <$> SDL_AppIterate_int 5 5 32 dragged =
  Some [(3, 2); (1, 1); (2, 1)].
Proof. reflexivity. Qed.

Lemma pointer_cell_pixels_witness :
  (0 ≤ 5 < 4096) ∧ (0 ≤ 6 < 4096) ∧
  mouseX dragging = float_of_Z 5 ∧ mouseY dragging = float_of_Z 6 ∧
  pointer_cell dragging = Some (5 `div` RENDER_SCALE, 6 `div` RENDER_SCALE).
Proof.
  split; [lia|]. split; [lia|]. split; [reflexivity|]. split; [reflexivity|].
  apply pointer_cell_pixels; [lia|lia|reflexivity|reflexivity].
Defined.

Lemma SDL_AppIterate_pacing_witness :
  let a := set_steps_per_second (initial_App 5 5 100) (float_of_Z 20) in
  Inv 5 5 (sim a) ∧ (mouseDown a = true → is_Some (pointer_cell a)) ∧
  steps_per_second a = float_of_Z 20 ∧ (1 ≤ 20 ≤ MAX_STEPS_PER_SECOND) ∧
  (0 ≤ 50 < 4096) ∧ 0 ≤ last_step_time a ∧ last_step_time a + 50 < 2 ^ 64 ∧
  ∃ a1 a',
    PaintCells 5 5 a = Some a1 ∧
    SDL_AppIterate 5 5 (last_step_time a + 50) a = Some a' ∧
    (if 1000 <=? 50 * 20
     then last_step_time a' = last_step_time a + 50 ∧
          Some (currentState (sim a')) =
            currentState <$> Update_Simulation 5 5 (sim a1)
     else last_step_time a' = last_step_time a ∧
          currentState (sim a') = currentState (sim a1)).
Proof.
  split; [apply initial_Inv_5x5|]. split; [discriminate|].
  split; [reflexivity|]. split; [unfold MAX_STEPS_PER_SECOND; lia|].
  split; [lia|]. split; [simpl; lia|]. split; [simpl; lia|].
  apply (SDL_AppIterate_pacing 5 5
           (set_steps_per_second (initial_App 5 5 100) (float_of_Z 20)) 20 50);
    [apply initial_Inv_5x5|discriminate|reflexivity
    |unfold MAX_STEPS_PER_SECOND; lia|lia|simpl; lia|simpl; lia].
Defined.
